(** * Ground-station candidate set: distance, zones, normalisation, deduplication

    Shallow embedding of [tools/build_candidate_set.py].

    Coordinates and distances are real numbers ([R]); Python floats are
    idealised as reals, so NaN and rounding are outside this model.
    Candidate objects live in a store indexed by references, because the
    deduplication loop mutates the surviving representatives in place. *)

From Stdlib Require Import Reals Lra Lia ZArith List String DecimalString
  DecimalNat Bool Permutation Sorted FinFun.
Import ListNotations.

Open Scope string_scope.
Open Scope R_scope.

(* ================================================================= *)
(** ** Data model *)

(** The [Candidate] dataclass.  [id] and [name] are declared [str] but
    hold [None] when the source record carries the key with [null]. *)
Record Candidate : Type := mkCandidate {
  id : option string;
  name : option string;
  latitude : R;
  longitude : R;
  zone : string;
  source : string;
  tier : option Z;
  demand_gbps : option R;
  weather_score : option R;
  cable_count : option Z;
  cables : option (list string);
  merged_sources : option (list string)
}.

(** Zone table: [ZONES], in declaration (iteration) order. *)
Record ZoneDef : Type := mkZone {
  lon_min : Z;
  lon_max : Z;
  quota : Z
}.

Definition ZONES : list (string * ZoneDef) :=
  [ ("AMERICAS", mkZone (-180) (-30) 72);
    ("EMEA",     mkZone (-30)  60    85);
    ("APAC",     mkZone 60     180   90) ].

Definition PROXIMITY_THRESHOLD_KM : R := 50.

(* ================================================================= *)
(** ** Distance oracle *)

(** [math.radians]. *)
Definition radians (x : R) : R := x * (PI / 180).

(** [math.atan2 y x] on the reals. *)
Definition atan2 (y x : R) : R :=
  if Rlt_dec 0 x then atan (y / x)
  else if Rlt_dec x 0 then
    (if Rle_dec 0 y then atan (y / x) + PI else atan (y / x) - PI)
  else if Rlt_dec 0 y then PI / 2
  else if Rlt_dec y 0 then - (PI / 2)
  else 0.

(** The haversine term [a] of the formula. *)
Definition hav_a (lat1 lon1 lat2 lon2 : R) : R :=
  let lat1_rad := radians lat1 in
  let lat2_rad := radians lat2 in
  let dlat := radians (lat2 - lat1) in
  let dlon := radians (lon2 - lon1) in
  (sin (dlat / 2)) ^ 2 + cos lat1_rad * cos lat2_rad * (sin (dlon / 2)) ^ 2.

Definition haversine_km (lat1 lon1 lat2 lon2 : R) : R :=
  let R_earth := 6371 in
  let a := hav_a lat1 lon1 lat2 lon2 in
  let c := 2 * atan2 (sqrt a) (sqrt (1 - a)) in
  R_earth * c.

(* ================================================================= *)
(** ** Zone classifier *)

Definition in_zone (lon : R) (z : ZoneDef) : bool :=
  if Rle_dec (IZR (lon_min z)) lon
  then (if Rlt_dec lon (IZR (lon_max z)) then true else false)
  else false.

Fixpoint first_zone (lon : R) (zs : list (string * ZoneDef)) : option string :=
  match zs with
  | [] => None
  | (zone_name, zone_def) :: zs' =>
      if in_zone lon zone_def then Some zone_name else first_zone lon zs'
  end.

Definition assign_zone (lon : R) : string :=
  match first_zone lon ZONES with
  | Some zone_name => zone_name
  | None => "APAC"
  end.

(* ================================================================= *)
(** ** Record normaliser *)

(** Result of looking a key up in a JSON object whose value, when
    present, may be [null]. *)
Inductive field (A : Type) : Type :=
| Absent : field A
| Null : field A
| Val : A -> field A.
Arguments Absent {A}.
Arguments Null {A}.
Arguments Val {A} _.

(** [d.get(k, default)]: the default is used only when the key is absent;
    a key that is present with [null] yields [None]. *)
Definition get_default {A : Type} (f : field A) (default : A) : option A :=
  match f with
  | Absent => Some default
  | Null => None
  | Val a => Some a
  end.

(** A ground-node JSON record.  Keys read with [node.get(k)] are options:
    an absent key and a [null] both read as [None].  ["id"] and ["name"]
    are read with a default, so absence and [null] are told apart. *)
Record GroundNode : Type := mkGroundNode {
  gn_latitude : option R;
  gn_longitude : option R;
  gn_id : field string;
  gn_name : field string;
  gn_tier : option Z;
  gn_demand_gbps : option R;
  gn_weather_score : option R
}.

(** A cable-landing JSON record.  ["id"], ["name"], ["cable_count"] and
    ["cables"] are read with a default, so absence and [null] are told
    apart. *)
Record LandingPoint : Type := mkLandingPoint {
  lp_latitude : option R;
  lp_longitude : option R;
  lp_id : field string;
  lp_name : field string;
  lp_cable_count : field Z;
  lp_cables : field (list string)
}.

(** [str(n)] for a list length. *)
Definition decimal (n : nat) : string :=
  NilEmpty.string_of_uint (Nat.to_uint n).

(** Body of the loop of [load_ground_nodes]; [candidates] is the list
    built so far. *)
Definition load_ground_node (candidates : list Candidate) (node : GroundNode)
  : list Candidate :=
  match gn_latitude node, gn_longitude node with
  | Some lat, Some lon =>
      (candidates ++
      [ mkCandidate
          (get_default (gn_id node)
             ("gn-" ++ decimal (List.length candidates))%string)
          (get_default (gn_name node) "Unknown")
          lat lon (assign_zone lon) "ground_node"
          (gn_tier node) (gn_demand_gbps node) (gn_weather_score node)
          None None None ])%list
  | _, _ => candidates
  end.

Definition load_ground_nodes (nodes : list GroundNode) : list Candidate :=
  fold_left load_ground_node nodes [].

(** Body of the loop of [load_cable_landings]. *)
Definition load_cable_landing (candidates : list Candidate) (point : LandingPoint)
  : list Candidate :=
  match lp_latitude point, lp_longitude point with
  | Some lat, Some lon =>
      (candidates ++
      [ mkCandidate
          (get_default (lp_id point)
             ("cl-" ++ decimal (List.length candidates))%string)
          (get_default (lp_name point) "Unknown")
          lat lon (assign_zone lon) "cable_landing"
          None None None
          (get_default (lp_cable_count point) 0%Z)
          (get_default (lp_cables point) [])
          None ])%list
  | _, _ => candidates
  end.

(** [load_cable_landings], from the list [points] of landing records. *)
Definition load_cable_landings (points : list LandingPoint) : list Candidate :=
  fold_left load_cable_landing points [].

(* ================================================================= *)
(** ** Deduplication engine *)

(** Candidate objects are addressed by reference; the store gives the
    current contents of every object. *)
Definition ref : Type := nat.
Definition Store : Type := ref -> Candidate.

Definition upd (h : Store) (e : ref) (v : Candidate) : Store :=
  fun r => if Nat.eqb r e then v else h r.

(** Python truth value of an [Optional[int]] and of an [Optional[float]]. *)
Definition truthy_int (o : option Z) : bool :=
  match o with
  | Some n => negb (n =? 0)%Z
  | None => false
  end.

Definition truthy_float (o : option R) : bool :=
  match o with
  | Some w => if Req_dec_T w 0 then false else true
  | None => false
  end.

Definition is_none {A : Type} (o : option A) : bool :=
  match o with
  | Some _ => false
  | None => true
  end.

(** [c.cable_count or 0]. *)
Definition count_or_0 (o : option Z) : Z :=
  match o with
  | Some n => n
  | None => 0%Z
  end.

(** The sort key [importance]. *)
Definition importance (c : Candidate) : Z * Z :=
  let source_priority := if String.eqb (source c) "ground_node" then 0%Z else 1%Z in
  let cable_priority := (- count_or_0 (cable_count c))%Z in
  (source_priority, cable_priority).

(** Tuple comparison [k1 <= k2]. *)
Definition key_leb (k1 k2 : Z * Z) : bool :=
  (fst k1 <? fst k2)%Z || ((fst k1 =? fst k2)%Z && (snd k1 <=? snd k2)%Z).

(** [sorted(candidates, key=importance)]: a stable sort, written as a
    stable insertion sort; keys are read from the store [h]. *)
Fixpoint insert_by (h : Store) (x : ref) (l : list ref) : list ref :=
  match l with
  | [] => [x]
  | y :: l' =>
      if key_leb (importance (h x)) (importance (h y))
      then x :: y :: l'
      else y :: insert_by h x l'
  end.

Fixpoint sorted (h : Store) (l : list ref) : list ref :=
  match l with
  | [] => []
  | x :: l' => insert_by h x (sorted h l')
  end.

Definition opt_max (a b : option Z) : option Z :=
  match a, b with
  | Some x, Some y => Some (Z.max x y)
  | _, _ => a
  end.

(** The merge block: the value of [existing] after [candidate] has been
    merged into it. *)
Definition merge_into (existing candidate : Candidate) : Candidate :=
  let ms :=
    (match merged_sources existing with
     | None => [source existing]
     | Some l => l
     end ++ [source candidate])%list in
  let cc :=
    if is_none (cable_count existing) && truthy_int (cable_count candidate)
    then (cable_count candidate, cables candidate)
    else if truthy_int (cable_count existing) && truthy_int (cable_count candidate)
    then (opt_max (cable_count existing) (cable_count candidate), cables existing)
    else (cable_count existing, cables existing) in
  let ws :=
    if is_none (weather_score existing) && truthy_float (weather_score candidate)
    then weather_score candidate
    else weather_score existing in
  mkCandidate (id existing) (name existing) (latitude existing)
    (longitude existing) (zone existing) (source existing)
    (tier existing) (demand_gbps existing) ws (fst cc) (snd cc) (Some ms).

(** The test [dist < threshold_km] between [candidate] and [existing]. *)
Definition within (threshold_km : R) (candidate existing : Candidate) : bool :=
  if Rlt_dec
       (haversine_km (latitude candidate) (longitude candidate)
                     (latitude existing) (longitude existing))
       threshold_km
  then true else false.

(** The inner loop: the first representative within the threshold. *)
Fixpoint find_match (threshold_km : R) (h : Store) (candidate : Candidate)
  (unique : list ref) : option ref :=
  match unique with
  | [] => None
  | existing :: rest =>
      if within threshold_km candidate (h existing)
      then Some existing
      else find_match threshold_km h candidate rest
  end.

Record DedupState : Type := mkState {
  heap : Store;
  unique : list ref;
  merged_count : nat
}.

(** One iteration of the outer loop. *)
Definition process (threshold_km : R) (st : DedupState) (candidate : ref)
  : DedupState :=
  match find_match threshold_km (heap st) (heap st candidate) (unique st) with
  | Some existing =>
      mkState (upd (heap st) existing
                 (merge_into (heap st existing) (heap st candidate)))
              (unique st)
              (S (merged_count st))
  | None =>
      mkState (heap st) (unique st ++ [candidate])%list (merged_count st)
  end.

(** [deduplicate_candidates]: the final store, the returned list [unique]
    and the reported merge count. *)
Definition deduplicate_candidates (h : Store) (candidates : list ref)
  (threshold_km : R) : DedupState :=
  fold_left (process threshold_km) (sorted h candidates) (mkState h [] 0%nat).

(** The candidates returned, read from the final store. *)
Definition result (st : DedupState) : list Candidate :=
  map (heap st) (unique st).

(** A list of freshly created candidates: object [i] is the [i]-th one. *)
Definition blank : Candidate :=
  mkCandidate (Some "") (Some "") 0 0 "" "" None None None None None None.

Definition store_of (cs : list Candidate) : Store :=
  fun r => nth r cs blank.

Definition dedup_fresh (cs : list Candidate) (threshold_km : R) : DedupState :=
  deduplicate_candidates (store_of cs) (seq 0 (List.length cs)) threshold_km.

(** *** Merge log

    An observer of the loop: for every candidate scanned, its reference,
    its contents when scanned, and the representative it was merged into
    ([None] when it became a representative itself). *)
Record Event : Type := mkEvent {
  ev_ref : ref;
  ev_value : Candidate;
  ev_target : option ref
}.

Fixpoint run_log (threshold_km : R) (st : DedupState) (rs : list ref)
  : list Event :=
  match rs with
  | [] => []
  | r :: rs' =>
      mkEvent r (heap st r)
        (find_match threshold_km (heap st) (heap st r) (unique st))
      :: run_log threshold_km (process threshold_km st r) rs'
  end.

Definition dedup_log (h : Store) (candidates : list ref) (threshold_km : R)
  : list Event :=
  run_log threshold_km (mkState h [] 0%nat) (sorted h candidates).

Definition targets (e : ref) (ev : Event) : bool :=
  match ev_target ev with
  | Some e' => Nat.eqb e' e
  | None => false
  end.

(** The candidates absorbed by representative [e], in merge order. *)
Definition absorbed (e : ref) (log : list Event) : list Candidate :=
  map ev_value (filter (targets e) log).

(** Distance between two stored candidates. *)
Definition dist (h : Store) (a b : ref) : R :=
  haversine_km (latitude (h a)) (longitude (h a))
               (latitude (h b)) (longitude (h b)).

(** Every element is at least [t] away from every later one. *)
Fixpoint pairwise_apart (t : R) (h : Store) (l : list ref) : Prop :=
  match l with
  | [] => True
  | x :: l' => Forall (fun y => t <= dist h x y /\ t <= dist h y x) l'
               /\ pairwise_apart t h l'
  end.

(** The fields the deduplication stage never writes. *)
Definition same_identity (c d : Candidate) : Prop :=
  id c = id d /\ name c = name d /\ latitude c = latitude d /\
  longitude c = longitude d /\ zone c = zone d /\ source c = source d /\
  tier c = tier d /\ demand_gbps c = demand_gbps d.

(** Largest count among those present. *)
Fixpoint max_present (l : list (option Z)) : option Z :=
  match l with
  | [] => None
  | None :: l' => max_present l'
  | Some n :: l' =>
      match max_present l' with
      | Some m => Some (Z.max n m)
      | None => Some n
      end
  end.

(** First value that is present. *)
Fixpoint first_present (l : list (option R)) : option R :=
  match l with
  | [] => None
  | Some w :: _ => Some w
  | None :: l' => first_present l'
  end.

(** First value that is present and non-zero. *)
Fixpoint first_truthy (l : list (option R)) : option R :=
  match l with
  | [] => None
  | o :: l' => if truthy_float o then o else first_truthy l'
  end.

(* ================================================================= *)
(** ** Properties as the specification words them *)

(** Longitude [lon] lies in the half-open interval declared for [z]. *)
Definition zone_contains (z : ZoneDef) (lon : R) : Prop :=
  IZR (lon_min z) <= lon < IZR (lon_max z).

(** A representative carries the score of the first record, among itself
    and the candidates it absorbed, that provides one. *)
Definition spec_weather_first_provided : Prop :=
  forall (h : Store) (candidates : list ref) (t : R) (e : ref),
    In e (unique (deduplicate_candidates h candidates t)) ->
    weather_score (heap (deduplicate_candidates h candidates t) e) =
    first_present
      (map weather_score (h e :: absorbed e (dedup_log h candidates t))).

(** A representative's cable count, when present, is the largest count
    among itself and the candidates it absorbed. *)
Definition spec_cable_count_max : Prop :=
  forall (h : Store) (candidates : list ref) (t : R) (e : ref) (n : Z),
    In e (unique (deduplicate_candidates h candidates t)) ->
    cable_count (heap (deduplicate_candidates h candidates t) e) = Some n ->
    max_present
      (map cable_count (h e :: absorbed e (dedup_log h candidates t))) = Some n.

(** Every cable-landing candidate has a cable count and a cable list. *)
Definition spec_landing_fields_present : Prop :=
  forall (points : list LandingPoint) (c : Candidate),
    In c (load_cable_landings points) ->
    cable_count c <> None /\ cables c <> None.

(* ================================================================= *)
(** ** Auxiliary definitions for the normaliser *)

(** Where a loaded cable-landing candidate comes from. *)
Definition from_point (p : LandingPoint) (c : Candidate) : Prop :=
  lp_latitude p = Some (latitude c) /\
  lp_longitude p = Some (longitude c) /\
  source c = "cable_landing" /\
  zone c = assign_zone (longitude c) /\
  cable_count c = get_default (lp_cable_count p) 0%Z /\
  cables c = get_default (lp_cables p) [] /\
  weather_score c = None /\
  merged_sources c = None.

(** Where a loaded ground-node candidate comes from. *)
Definition from_node (n : GroundNode) (c : Candidate) : Prop :=
  gn_latitude n = Some (latitude c) /\
  gn_longitude n = Some (longitude c) /\
  source c = "ground_node" /\
  zone c = assign_zone (longitude c) /\
  cable_count c = None /\
  cables c = None /\
  weather_score c = gn_weather_score n /\
  merged_sources c = None.

(** A landing record whose ["cable_count"] is an explicit [null]. *)
Definition null_count_point : LandingPoint :=
  mkLandingPoint (Some 1) (Some 2) (Val "cl-x") (Val "Null Bay") Null Absent.

(** A landing record that omits both keys. *)
Definition bare_point : LandingPoint :=
  mkLandingPoint (Some 1) (Some 2) Absent Absent Absent Absent.

(** The candidate that [bare_point] is normalised to. *)
Definition bare_candidate : Candidate :=
  mkCandidate (Some "cl-0") (Some "Unknown") 1 2 (assign_zone 2) "cable_landing"
    None None None (Some 0%Z) (Some []) None.

(* ================================================================= *)
(** ** Concrete scenarios *)

(** The scenario of the specification: a ground node at (40.0, -74.0)
    and a cable landing with five cables at (40.1, -74.05). *)
Definition scenario_node : GroundNode :=
  mkGroundNode (Some 40) (Some (-74)) (Val "gn-nyc") (Val "Node")
    None None None.

Definition scenario_point : LandingPoint :=
  mkLandingPoint (Some (401 / 10)) (Some (-7405 / 100)) (Val "cl-nyc")
    (Val "Landing") (Val 5%Z) (Val ["cable-a"]).

Definition scenario_ground : Candidate :=
  mkCandidate (Some "gn-nyc") (Some "Node") 40 (-74) (assign_zone (-74)) "ground_node"
    None None None None None None.

Definition scenario_landing : Candidate :=
  mkCandidate (Some "cl-nyc") (Some "Landing") (401 / 10) (-7405 / 100)
    (assign_zone (-7405 / 100)) "cable_landing"
    None None None (Some 5%Z) (Some ["cable-a"]) None.

(** A ground-node candidate whose cable count is 0, and a landing with
    five cables at the same place. *)
Definition zero_ground : Candidate :=
  mkCandidate (Some "g0") (Some "Zero") 40 (-74) "AMERICAS" "ground_node"
    None None None (Some 0%Z) None None.

Definition five_landing : Candidate :=
  mkCandidate (Some "c5") (Some "Five") 40 (-74) "AMERICAS" "cable_landing"
    None None None (Some 5%Z) (Some ["cable-a"]) None.

(** Three ground nodes at one place: no score, score 0, score 0.7. *)
Definition no_score : Candidate :=
  mkCandidate (Some "w0") (Some "None") 40 (-74) "AMERICAS" "ground_node"
    None None None None None None.

Definition zero_score : Candidate :=
  mkCandidate (Some "w1") (Some "Zero") 40 (-74) "AMERICAS" "ground_node"
    None None (Some 0) None None None.

Definition good_score : Candidate :=
  mkCandidate (Some "w2") (Some "Good") 40 (-74) "AMERICAS" "ground_node"
    None None (Some (7 / 10)) None None None.

(** A chain on the equator: [chain_a] and [chain_c] are a quarter turn
    either side of the ground node [chain_b]. *)
Definition chain_a : Candidate :=
  mkCandidate (Some "A") (Some "West") 0 (-90) "AMERICAS" "cable_landing"
    None None None (Some 0%Z) (Some []) None.

Definition chain_b : Candidate :=
  mkCandidate (Some "B") (Some "Middle") 0 0 "EMEA" "ground_node"
    None None None None None None.

Definition chain_c : Candidate :=
  mkCandidate (Some "C") (Some "East") 0 90 "APAC" "cable_landing"
    None None None (Some 0%Z) (Some []) None.

(* ================================================================= *)
(** ** Zone summariser and pipeline *)

(** [zone_counts[z] += 1] when [z] is a key of [zone_counts]; the
    dictionary is an association list in insertion order. *)
Fixpoint bump (z : string) (zone_counts : list (string * nat))
  : list (string * nat) :=
  match zone_counts with
  | [] => []
  | (k, v) :: rest =>
      if String.eqb k z then (k, S v) :: rest else (k, v) :: bump z rest
  end.

Definition summarize_by_zone (candidates : list Candidate)
  : list (string * nat) :=
  fold_left (fun zone_counts c => bump (zone c) zone_counts) candidates
    [("AMERICAS", 0%nat); ("EMEA", 0%nat); ("APAC", 0%nat)].

(** What [main] writes: the candidates and the metadata, without the
    timestamp. *)
Record Output : Type := mkOutput {
  out_candidates : list Candidate;
  total_candidates : nat;
  zone_distribution : list (string * nat);
  sources_ground_nodes : nat;
  sources_cable_landings : nat;
  dedup_threshold_km : R
}.

(** [main], from the two parsed inputs to the output written. *)
Definition main (nodes : list GroundNode) (points : list LandingPoint)
  : Output :=
  let ground_nodes := load_ground_nodes nodes in
  let cable_landings := load_cable_landings points in
  let all_candidates := (ground_nodes ++ cable_landings)%list in
  let unique_candidates :=
    result (dedup_fresh all_candidates PROXIMITY_THRESHOLD_KM) in
  let zone_counts := summarize_by_zone unique_candidates in
  mkOutput unique_candidates (List.length unique_candidates) zone_counts
    (List.length ground_nodes) (List.length cable_landings)
    PROXIMITY_THRESHOLD_KM.

(* ================================================================= *)
(** ** Vocabulary for the further properties *)

(** Number of candidates tagged with zone [z]. *)
Definition count_zone (z : string) (cs : list Candidate) : nat :=
  List.length (filter (fun c => String.eqb (zone c) z) cs).

(** The zone is one of the three declared names. *)
Definition declared_zone (z : string) : Prop :=
  z = "AMERICAS" \/ z = "EMEA" \/ z = "APAC".

(** A record that passes the coordinate filter of its loader. *)
Definition node_kept (n : GroundNode) : bool :=
  match gn_latitude n, gn_longitude n with
  | Some _, Some _ => true
  | _, _ => false
  end.

Definition point_kept (p : LandingPoint) : bool :=
  match lp_latitude p, lp_longitude p with
  | Some _, Some _ => true
  | _, _ => false
  end.

(** [l1] is [l2] with some elements left out, order kept. *)
Inductive subseq {A : Type} : list A -> list A -> Prop :=
| subseq_nil : subseq [] []
| subseq_skip : forall x l1 l2, subseq l1 l2 -> subseq l1 (x :: l2)
| subseq_keep : forall x l1 l2, subseq l1 l2 -> subseq (x :: l1) (x :: l2).

(** Order of two stored candidates by the sort key. *)
Definition key_le (h : Store) (a b : ref) : Prop :=
  key_leb (importance (h a)) (importance (h b)) = true.

(** [a] is at least as important as [b]: a ground node before any other
    source, and within one group the higher cable count (none counts as
    0) first. *)
Definition precedes (a b : Candidate) : Prop :=
  (source a = "ground_node" /\ source b <> "ground_node") \/
  ((source a = "ground_node" <-> source b = "ground_node") /\
   (count_or_0 (cable_count b) <= count_or_0 (cable_count a))%Z).

(** The candidate's sort key is [k]. *)
Definition has_key (k : Z * Z) (c : Candidate) : bool :=
  (fst (importance c) =? fst k)%Z && (snd (importance c) =? snd k)%Z.

(** The sources listed by a candidate that has absorbed nothing yet. *)
Definition own_sources (c : Candidate) : list string :=
  match merged_sources c with
  | None => [source c]
  | Some l => l
  end.

(* ================================================================= *)
(** ** Distance oracle: basic facts *)

Section Distance.

Lemma radians_0 : radians 0 = 0.
Proof. unfold radians; lra. Qed.

Lemma radians_opp (x : R) : radians (- x) = - radians x.
Proof. unfold radians; lra. Qed.

Lemma sin_half_opp_sq (x : R) : sin (- x / 2) ^ 2 = sin (x / 2) ^ 2.
Proof.
  replace (- x / 2) with (- (x / 2)) by lra.
  rewrite sin_neg. ring.
Qed.

Lemma hav_a_sym (lat1 lon1 lat2 lon2 : R) :
  hav_a lat1 lon1 lat2 lon2 = hav_a lat2 lon2 lat1 lon1.
Proof.
  unfold hav_a; cbv zeta.
  replace (lat1 - lat2) with (- (lat2 - lat1)) by lra.
  replace (lon1 - lon2) with (- (lon2 - lon1)) by lra.
  rewrite !radians_opp, !sin_half_opp_sq. ring.
Qed.

Lemma hav_a_same (lat lon : R) : hav_a lat lon lat lon = 0.
Proof.
  unfold hav_a; cbv zeta.
  replace (lat - lat) with 0 by lra.
  replace (lon - lon) with 0 by lra.
  rewrite radians_0.
  replace (0 / 2) with 0 by lra.
  rewrite sin_0. ring.
Qed.



Lemma atan2_0_1 : atan2 0 1 = 0.
Proof.
  unfold atan2. destruct (Rlt_dec 0 1) as [_ | H]; [| lra].
  replace (0 / 1) with 0 by lra. apply atan_0.
Qed.


Lemma haversine_sym (lat1 lon1 lat2 lon2 : R) :
  haversine_km lat1 lon1 lat2 lon2 = haversine_km lat2 lon2 lat1 lon1.
Proof.
  unfold haversine_km; cbv zeta. now rewrite hav_a_sym.
Qed.

Lemma haversine_of_a0 (lat1 lon1 lat2 lon2 : R) :
  hav_a lat1 lon1 lat2 lon2 = 0 -> haversine_km lat1 lon1 lat2 lon2 = 0.
Proof.
  intros Ha. unfold haversine_km; cbv zeta. rewrite Ha.
  replace (1 - 0) with 1 by lra.
  rewrite sqrt_0, sqrt_1, atan2_0_1. lra.
Qed.

Lemma haversine_same (lat lon : R) : haversine_km lat lon lat lon = 0.
Proof. apply haversine_of_a0, hav_a_same. Qed.

(** [atan] lies below the identity on the non-negative reals. *)
Lemma atan_le_id (z : R) : 0 <= z -> atan z <= z.
Proof.
  intros Hz.
  pose (g := (Ranalysis1.id - atan)%F).
  assert (Hd : derivable g).
  { unfold g. apply derivable_minus; [apply derivable_id |].
    intro x. apply derivable_pt_atan. }
  assert (Hinc : increasing g).
  { apply (nonneg_derivative_1 g Hd). intro x.
    rewrite (pr_nu g x (Hd x)
               (derivable_pt_minus Ranalysis1.id atan x
                  (derivable_pt_id x) (derivable_pt_atan x))).
    unfold g. rewrite derive_pt_minus, derive_pt_id, derive_pt_atan.
    assert (H1 : 0 < 1 + x²) by (unfold Rsqr; nra).
    assert (H2 : 1 / (1 + x²) <= 1).
    { apply Rmult_le_reg_r with (1 + x²); [exact H1 |].
      unfold Rdiv. rewrite Rmult_assoc, Rinv_l by lra. unfold Rsqr. nra. }
    lra. }
  specialize (Hinc 0 z Hz). unfold g, minus_fct, Ranalysis1.id in Hinc.
  rewrite atan_0 in Hinc. lra.
Qed.

Lemma sin_abs_le_pos (x : R) : 0 < x -> - x <= sin x <= x.
Proof.
  intros Hpos.
  pose proof (sin_lt_x x Hpos) as Hup.
  pose proof (SIN_bound x) as [Hlo Hhi].
  split; [| lra].
  destruct (Rle_dec x 1) as [Hx | Hx]; [| lra].
  pose proof PI2_1 as Hpi.
  assert (Hs : 0 < sin x) by (apply sin_gt_0; lra).
  lra.
Qed.

Lemma sin_sq_le (x : R) : sin x ^ 2 <= x ^ 2.
Proof.
  destruct (Rtotal_order x 0) as [Hneg | [H0 | Hpos]].
  - assert (Hp : 0 < - x) by lra.
    pose proof (sin_abs_le_pos (- x) Hp) as Hb.
    rewrite sin_neg in Hb. nra.
  - subst x. rewrite sin_0. lra.
  - pose proof (sin_abs_le_pos x Hpos) as Hb. nra.
Qed.

(** On the equator the distance is the arc for the longitude gap. *)
Lemma atan2_sin_cos (p : R) : 0 <= p <= PI / 2 -> atan2 (sin p) (cos p) = p.
Proof.
  intros [Hlo Hhi]. unfold atan2.
  pose proof PI2_RGT_0 as Hpi.
  destruct (Rlt_dec 0 (cos p)) as [Hc | Hc].
  - fold (tan p). apply atan_tan. split; [lra |].
    destruct Hhi as [Hlt | Heq]; [exact Hlt |].
    subst p. rewrite cos_PI2 in Hc. lra.
  - assert (Hp : p = PI / 2).
    { destruct Hhi as [Hlt | Heq]; [| exact Heq].
      exfalso. apply Hc. apply cos_gt_0; lra. }
    subst p. rewrite cos_PI2, sin_PI2.
    destruct (Rlt_dec 0 0); [lra |].
    destruct (Rlt_dec 0 1); lra.
Qed.

Lemma haversine_equator (lon1 lon2 : R) :
  0 <= lon2 - lon1 <= 180 ->
  haversine_km 0 lon1 0 lon2 = 6371 * radians (lon2 - lon1).
Proof.
  intros Hd. pose proof PI_RGT_0 as Hpi.
  set (p := radians (lon2 - lon1) / 2).
  assert (Hp : 0 <= p <= PI / 2) by (unfold p, radians; split; nra).
  assert (Ha : hav_a 0 lon1 0 lon2 = sin p ^ 2).
  { unfold hav_a; cbv zeta. fold p.
    replace (0 - 0) with 0 by lra. rewrite radians_0.
    replace (0 / 2) with 0 by lra. rewrite sin_0, cos_0. ring. }
  unfold haversine_km; cbv zeta. rewrite Ha.
  assert (Hs : 0 <= sin p) by (apply sin_ge_0; lra).
  assert (Hc : 0 <= cos p) by (apply cos_ge_0; lra).
  rewrite (sqrt_pow2 _ Hs).
  replace (1 - sin p ^ 2) with (cos p ^ 2).
  2:{ pose proof (sin2_cos2 p) as H. unfold Rsqr in H. nra. }
  rewrite (sqrt_pow2 _ Hc), (atan2_sin_cos p Hp).
  unfold p. lra.
Qed.

(** A bound for nearby points. *)
Lemma haversine_small (lat1 lon1 lat2 lon2 s : R) :
  0 <= s -> s <= 1 / 2 ->
  (radians (lat2 - lat1) / 2) ^ 2 + (radians (lon2 - lon1) / 2) ^ 2 <= s ^ 2 ->
  haversine_km lat1 lon1 lat2 lon2 <= 6371 * (4 * s).
Proof.
  intros Hs0 Hs1 Hb.
  set (a := hav_a lat1 lon1 lat2 lon2).
  assert (Ha : a <= s ^ 2).
  { unfold a, hav_a; cbv zeta.
    pose proof (sin_sq_le (radians (lat2 - lat1) / 2)) as H1.
    pose proof (sin_sq_le (radians (lon2 - lon1) / 2)) as H2.
    pose proof (COS_bound (radians lat1)) as [Hc1 Hc1'].
    pose proof (COS_bound (radians lat2)) as [Hc2 Hc2'].
    pose proof (pow2_ge_0 (sin (radians (lon2 - lon1) / 2))) as H3.
    assert (Hcc : cos (radians lat1) * cos (radians lat2) <= 1) by nra.
    nra. }
  unfold haversine_km; cbv zeta. fold a.
  assert (Hy : sqrt a <= s).
  { rewrite <- (sqrt_pow2 s Hs0). now apply sqrt_le_1_alt. }
  assert (Hx : 1 / 2 <= sqrt (1 - a)).
  { rewrite <- (sqrt_pow2 (1 / 2)) by lra. apply sqrt_le_1_alt. nra. }
  pose proof (sqrt_pos a) as Hy0.
  unfold atan2. destruct (Rlt_dec 0 (sqrt (1 - a))) as [_ | Hn]; [| lra].
  assert (Hq : sqrt a / sqrt (1 - a) <= 2 * s).
  { apply Rmult_le_reg_r with (sqrt (1 - a)); [lra |].
    unfold Rdiv. rewrite Rmult_assoc, Rinv_l by lra. nra. }
  assert (Hq0 : 0 <= sqrt a / sqrt (1 - a)).
  { apply Rmult_le_pos; [exact Hy0 |]. left. apply Rinv_0_lt_compat. lra. }
  pose proof (atan_le_id _ Hq0). lra.
Qed.

Lemma haversine_scenario : haversine_km (401/10) (-7405/100) 40 (-74) < 50.
Proof.
  apply Rle_lt_trans with (6371 * (4 * (1 / 800))); [| lra].
  apply haversine_small; [lra | lra |].
  pose proof PI_4. pose proof PI_RGT_0. unfold radians. nra.
Qed.

End Distance.

(* ================================================================= *)
(** ** Zone classifier: facts *)

Section Zones.

Lemma in_zone_true (lon : R) (z : ZoneDef) :
  in_zone lon z = true <-> zone_contains z lon.
Proof.
  unfold in_zone, zone_contains.
  destruct (Rle_dec (IZR (lon_min z)) lon) as [Hlo | Hlo];
    [destruct (Rlt_dec lon (IZR (lon_max z))) as [Hhi | Hhi] |];
    split; intros H; try discriminate; try reflexivity; lra.
Qed.

Lemma in_zone_false (lon : R) (z : ZoneDef) :
  in_zone lon z = false <-> ~ zone_contains z lon.
Proof.
  rewrite <- in_zone_true. destruct (in_zone lon z); split; intros H;
    try discriminate; try reflexivity; try (intros H'; discriminate).
  exfalso. now apply H.
Qed.

Lemma first_zone_none (lon : R) (zs : list (string * ZoneDef)) :
  (forall n z, In (n, z) zs -> ~ zone_contains z lon) ->
  first_zone lon zs = None.
Proof.
  induction zs as [| [n z] zs IH]; intros H; [reflexivity |].
  simpl. assert (Hz : in_zone lon z = false).
  { apply in_zone_false. apply (H n). now left. }
  rewrite Hz. apply IH. intros n' z' Hin. apply (H n'). now right.
Qed.

Lemma assign_zone_americas (lon : R) :
  -180 <= lon < -30 -> assign_zone lon = "AMERICAS".
Proof.
  intros H. unfold assign_zone, ZONES, first_zone.
  assert (Hz : in_zone lon (mkZone (-180) (-30) 72) = true)
    by (apply in_zone_true; unfold zone_contains; simpl; lra).
  now rewrite Hz.
Qed.

Lemma assign_zone_emea (lon : R) :
  -30 <= lon < 60 -> assign_zone lon = "EMEA".
Proof.
  intros H. unfold assign_zone, ZONES, first_zone.
  assert (Hz1 : in_zone lon (mkZone (-180) (-30) 72) = false)
    by (apply in_zone_false; unfold zone_contains; simpl; lra).
  assert (Hz2 : in_zone lon (mkZone (-30) 60 85) = true)
    by (apply in_zone_true; unfold zone_contains; simpl; lra).
  now rewrite Hz1, Hz2.
Qed.

Lemma assign_zone_apac (lon : R) :
  60 <= lon < 180 -> assign_zone lon = "APAC".
Proof.
  intros H. unfold assign_zone, ZONES, first_zone.
  assert (Hz1 : in_zone lon (mkZone (-180) (-30) 72) = false)
    by (apply in_zone_false; unfold zone_contains; simpl; lra).
  assert (Hz2 : in_zone lon (mkZone (-30) 60 85) = false)
    by (apply in_zone_false; unfold zone_contains; simpl; lra).
  assert (Hz3 : in_zone lon (mkZone 60 180 90) = true)
    by (apply in_zone_true; unfold zone_contains; simpl; lra).
  now rewrite Hz1, Hz2, Hz3.
Qed.

Lemma assign_zone_fallback (lon : R) :
  (forall n z, In (n, z) ZONES -> ~ zone_contains z lon) ->
  assign_zone lon = "APAC".
Proof.
  intros H. unfold assign_zone. now rewrite (first_zone_none lon ZONES H).
Qed.

Lemma zones_cases (n : string) (z : ZoneDef) :
  In (n, z) ZONES ->
  (n, z) = ("AMERICAS", mkZone (-180) (-30) 72) \/
  (n, z) = ("EMEA", mkZone (-30) 60 85) \/
  (n, z) = ("APAC", mkZone 60 180 90).
Proof.
  unfold ZONES. simpl. intros [H | [H | [H | []]]]; symmetry in H; tauto.
Qed.

End Zones.

(** C6. For a longitude in [-180, 180) the zone returned is the name of
    the one declared zone whose half-open interval holds the longitude;
    when no declared interval holds the longitude, as at exactly 180, the
    answer is the fallback "APAC"; and longitude -30 resolves to "EMEA". *)
Theorem assign_zone_partition (lon : R) :
  (-180 <= lon < 180 ->
   exists z : ZoneDef,
     In (assign_zone lon, z) ZONES /\ zone_contains z lon /\
     forall n' z', In (n', z') ZONES -> zone_contains z' lon ->
                   n' = assign_zone lon /\ z' = z) /\
  ((forall n z, In (n, z) ZONES -> ~ zone_contains z lon) ->
   assign_zone lon = "APAC") /\
  assign_zone 180 = "APAC" /\
  assign_zone (-30) = "EMEA".
Proof.
  split; [| split; [| split]].
  - intros Hr.
    assert (Hcase : -180 <= lon < -30 \/ -30 <= lon < 60 \/ 60 <= lon < 180)
      by lra.
    destruct Hcase as [Hc | [Hc | Hc]].
    + exists (mkZone (-180) (-30) 72). rewrite (assign_zone_americas lon Hc).
      split; [unfold ZONES; simpl; tauto |].
      split; [unfold zone_contains; simpl; lra |].
      intros n' z' Hin Hz. apply zones_cases in Hin.
      destruct Hin as [E | [E | E]]; inversion E; subst;
        unfold zone_contains in Hz; simpl in Hz; try lra; now split.
    + exists (mkZone (-30) 60 85). rewrite (assign_zone_emea lon Hc).
      split; [unfold ZONES; simpl; tauto |].
      split; [unfold zone_contains; simpl; lra |].
      intros n' z' Hin Hz. apply zones_cases in Hin.
      destruct Hin as [E | [E | E]]; inversion E; subst;
        unfold zone_contains in Hz; simpl in Hz; try lra; now split.
    + exists (mkZone 60 180 90). rewrite (assign_zone_apac lon Hc).
      split; [unfold ZONES; simpl; tauto |].
      split; [unfold zone_contains; simpl; lra |].
      intros n' z' Hin Hz. apply zones_cases in Hin.
      destruct Hin as [E | [E | E]]; inversion E; subst;
        unfold zone_contains in Hz; simpl in Hz; try lra; now split.
  - apply assign_zone_fallback.
  - apply assign_zone_fallback. intros n z Hin Hz. apply zones_cases in Hin.
    destruct Hin as [E | [E | E]]; inversion E; subst;
      unfold zone_contains in Hz; simpl in Hz; lra.
  - apply assign_zone_emea. lra.
Qed.

(** The partition theorem at longitude 0: inside [-180, 180), so a
    declared zone (EMEA) is returned. *)
Lemma assign_zone_partition_witness :
  -180 <= 0 < 180 /\
  exists z : ZoneDef,
    In (assign_zone 0, z) ZONES /\ zone_contains z 0 /\
    forall n' z', In (n', z') ZONES -> zone_contains z' 0 ->
                  n' = assign_zone 0 /\ z' = z.
Proof.
  assert (H : -180 <= 0 < 180) by lra.
  split; [exact H |].
  exact (proj1 (assign_zone_partition 0) H).
Defined.

(* ================================================================= *)
(** ** Record normaliser: facts *)

Section Normaliser.

Lemma load_cable_landing_in (acc : list Candidate) (p : LandingPoint)
  (c : Candidate) :
  In c (load_cable_landing acc p) -> In c acc \/ from_point p c.
Proof.
  unfold load_cable_landing.
  destruct (lp_latitude p) as [lat |] eqn:Elat; [| now left].
  destruct (lp_longitude p) as [lon |] eqn:Elon; [| now left].
  intros Hin. apply in_app_or in Hin. destruct Hin as [Hin | [Hc | []]].
  - now left.
  - right. subst c. unfold from_point; simpl. rewrite Elat, Elon. tauto.
Qed.

Lemma fold_cable_landings_in (points : list LandingPoint) :
  forall (acc : list Candidate) (c : Candidate),
    In c (fold_left load_cable_landing points acc) ->
    In c acc \/ exists p, In p points /\ from_point p c.
Proof.
  induction points as [| p points IH]; intros acc c Hin; simpl in Hin.
  - now left.
  - apply IH in Hin. destruct Hin as [Hin | (q & Hq & Hfrom)].
    + apply load_cable_landing_in in Hin. destruct Hin as [Hin | Hfrom].
      * now left.
      * right. exists p. split; [now left | exact Hfrom].
    + right. exists q. split; [now right | exact Hfrom].
Qed.

Lemma load_ground_node_in (acc : list Candidate) (n : GroundNode)
  (c : Candidate) :
  In c (load_ground_node acc n) -> In c acc \/ from_node n c.
Proof.
  unfold load_ground_node.
  destruct (gn_latitude n) as [lat |] eqn:Elat; [| now left].
  destruct (gn_longitude n) as [lon |] eqn:Elon; [| now left].
  intros Hin. apply in_app_or in Hin. destruct Hin as [Hin | [Hc | []]].
  - now left.
  - right. subst c. unfold from_node; simpl. rewrite Elat, Elon. tauto.
Qed.

Lemma fold_ground_nodes_in (nodes : list GroundNode) :
  forall (acc : list Candidate) (c : Candidate),
    In c (fold_left load_ground_node nodes acc) ->
    In c acc \/ exists n, In n nodes /\ from_node n c.
Proof.
  induction nodes as [| n nodes IH]; intros acc c Hin; simpl in Hin.
  - now left.
  - apply IH in Hin. destruct Hin as [Hin | (q & Hq & Hfrom)].
    + apply load_ground_node_in in Hin. destruct Hin as [Hin | Hfrom].
      * now left.
      * right. exists n. split; [now left | exact Hfrom].
    + right. exists q. split; [now right | exact Hfrom].
Qed.

Lemma get_default_absent {A : Type} (d : A) : get_default Absent d = Some d.
Proof. reflexivity. Qed.

Lemma get_default_present {A : Type} (f : field A) (d : A) :
  f <> Null -> get_default f d <> None.
Proof. destruct f; simpl; intros H; [discriminate | now elim H | discriminate]. Qed.

End Normaliser.

(** C10, as worded, fails: a record that carries ["cable_count": null]
    yields a candidate whose [cable_count] is [None]. *)
Lemma landing_fields_present_fails : ~ spec_landing_fields_present.
Proof.
  intros Hspec.
  destruct (Hspec [null_count_point]
              (mkCandidate (Some "cl-x") (Some "Null Bay") 1 2 (assign_zone 2)
                 "cable_landing" None None None None (Some []) None))
    as [Hcc _].
  - left. reflexivity.
  - now apply Hcc.
Qed.

(** Each loader pairs the records it keeps, in order, with the
    candidates it returns. *)
Lemma fold_cable_landings_rel (points : list LandingPoint) :
  forall (kept : list LandingPoint) (acc : list Candidate),
    Forall2 from_point kept acc ->
    Forall2 from_point (kept ++ filter point_kept points)%list
            (fold_left load_cable_landing points acc).
Proof.
  induction points as [| p points IH]; intros kept acc Hacc; simpl.
  - now rewrite app_nil_r.
  - unfold load_cable_landing at 2. unfold point_kept at 1.
    destruct (lp_latitude p) as [lat |] eqn:Elat; [| now apply IH].
    destruct (lp_longitude p) as [lon |] eqn:Elon; [| now apply IH].
    replace (kept ++ p :: filter point_kept points)%list
      with ((kept ++ [p]) ++ filter point_kept points)%list
      by (now rewrite <- app_assoc).
    apply IH. apply Forall2_app; [exact Hacc |].
    constructor; [| constructor].
    unfold from_point; simpl. rewrite Elat, Elon. tauto.
Qed.

Lemma fold_ground_nodes_rel (nodes : list GroundNode) :
  forall (kept : list GroundNode) (acc : list Candidate),
    Forall2 from_node kept acc ->
    Forall2 from_node (kept ++ filter node_kept nodes)%list
            (fold_left load_ground_node nodes acc).
Proof.
  induction nodes as [| n nodes IH]; intros kept acc Hacc; simpl.
  - now rewrite app_nil_r.
  - unfold load_ground_node at 2. unfold node_kept at 1.
    destruct (gn_latitude n) as [lat |] eqn:Elat; [| now apply IH].
    destruct (gn_longitude n) as [lon |] eqn:Elon; [| now apply IH].
    replace (kept ++ n :: filter node_kept nodes)%list
      with ((kept ++ [n]) ++ filter node_kept nodes)%list
      by (now rewrite <- app_assoc).
    apply IH. apply Forall2_app; [exact Hacc |].
    constructor; [| constructor].
    unfold from_node; simpl. rewrite Elat, Elon. tauto.
Qed.

(** C10, amended. The cable-landing loader returns one candidate per
    record that has both coordinates, in order, and each candidate takes
    [cable_count] and [cables] from its own record, with defaults 0 and
    the empty list when the record omits the key, so each is present
    unless that record carries an explicit null; the ground-node loader
    likewise returns one candidate per record kept, each with neither a
    cable count nor cables. *)
Theorem normaliser_cable_fields :
  (forall points : list LandingPoint,
     Forall2
       (fun (p : LandingPoint) (c : Candidate) =>
          lp_latitude p = Some (latitude c) /\
          lp_longitude p = Some (longitude c) /\
          cable_count c = get_default (lp_cable_count p) 0%Z /\
          cables c = get_default (lp_cables p) [] /\
          (lp_cable_count p = Absent -> cable_count c = Some 0%Z) /\
          (lp_cables p = Absent -> cables c = Some []) /\
          (lp_cable_count p <> Null -> cable_count c <> None) /\
          (lp_cables p <> Null -> cables c <> None))
       (filter point_kept points) (load_cable_landings points)) /\
  (forall nodes : list GroundNode,
     Forall2
       (fun (n : GroundNode) (c : Candidate) =>
          gn_latitude n = Some (latitude c) /\
          gn_longitude n = Some (longitude c) /\
          cable_count c = None /\ cables c = None)
       (filter node_kept nodes) (load_ground_nodes nodes)).
Proof.
  split.
  - intros points.
    apply (Forall2_impl _ (R1 := from_point));
      [| exact (fold_cable_landings_rel points [] [] (Forall2_nil _))].
    intros p c (Hlat & Hlon & _ & _ & Hcc & Hcb & _).
    split; [exact Hlat |]. split; [exact Hlon |].
    rewrite Hcc, Hcb. repeat split.
    + intros ->. reflexivity.
    + intros ->. reflexivity.
    + apply get_default_present.
    + apply get_default_present.
  - intros nodes.
    apply (Forall2_impl _ (R1 := from_node));
      [| exact (fold_ground_nodes_rel nodes [] [] (Forall2_nil _))].
    intros n c (Hlat & Hlon & _ & _ & Hcc & Hcb & _). tauto.
Qed.

(** The amended statement at a record without ["cable_count"] and
    ["cables"]: its candidate enters deduplication with count 0 and the
    empty cable list. *)
Lemma normaliser_cable_fields_witness :
  lp_cable_count bare_point = Absent /\ lp_cables bare_point = Absent /\
  cable_count bare_candidate = Some 0%Z /\ cables bare_candidate = Some [].
Proof.
  pose proof (proj1 normaliser_cable_fields [bare_point]) as H.
  change (filter point_kept [bare_point]) with [bare_point] in H.
  change (load_cable_landings [bare_point]) with [bare_candidate] in H.
  inversion H as [| p c ps cs Hrel _]; subst.
  destruct Hrel as (_ & _ & _ & _ & Hcc & Hcb & _).
  split; [reflexivity |]. split; [reflexivity |].
  split; [apply Hcc | apply Hcb]; reflexivity.
Defined.

(* ================================================================= *)
(** ** Deduplication engine: frame, order and distance invariants *)

Section Engine.

Variable t : R.

Lemma same_identity_refl (c : Candidate) : same_identity c c.
Proof. unfold same_identity. tauto. Qed.

Lemma same_identity_trans (a b c : Candidate) :
  same_identity a b -> same_identity b c -> same_identity a c.
Proof.
  unfold same_identity.
  intros (A1 & A2 & A3 & A4 & A5 & A6 & A7 & A8)
         (B1 & B2 & B3 & B4 & B5 & B6 & B7 & B8).
  repeat split; congruence.
Qed.

Lemma merge_into_identity (e c : Candidate) : same_identity (merge_into e c) e.
Proof. unfold same_identity, merge_into; simpl. tauto. Qed.

Lemma upd_same (h : Store) (e : ref) (v : Candidate) : upd h e v e = v.
Proof. unfold upd. now rewrite Nat.eqb_refl. Qed.

Lemma upd_other (h : Store) (e r : ref) (v : Candidate) :
  r <> e -> upd h e v r = h r.
Proof. intros Hne. unfold upd. apply Nat.eqb_neq in Hne. now rewrite Hne. Qed.

(** One iteration: either a merge into a representative found by the
    scan, or an append. *)
Lemma process_cases (st : DedupState) (r : ref) :
  (exists e, find_match t (heap st) (heap st r) (unique st) = Some e /\
     process t st r =
       mkState (upd (heap st) e (merge_into (heap st e) (heap st r)))
               (unique st) (S (merged_count st))) \/
  (find_match t (heap st) (heap st r) (unique st) = None /\
   process t st r = mkState (heap st) (unique st ++ [r]) (merged_count st)).
Proof.
  unfold process.
  destruct (find_match t (heap st) (heap st r) (unique st)) as [e |].
  - left. exists e. now split.
  - right. now split.
Qed.

Lemma process_identity (st : DedupState) (r x : ref) :
  same_identity (heap (process t st r) x) (heap st x).
Proof.
  destruct (process_cases st r) as [(e & _ & ->) | (_ & ->)]; simpl.
  - destruct (Nat.eq_dec x e) as [-> | Hne].
    + rewrite upd_same. apply merge_into_identity.
    + rewrite upd_other by exact Hne. apply same_identity_refl.
  - apply same_identity_refl.
Qed.

Lemma run_identity (rs : list ref) :
  forall (st : DedupState) (x : ref),
    same_identity (heap (fold_left (process t) rs st) x) (heap st x).
Proof.
  induction rs as [| r rs IH]; intros st x; simpl.
  - apply same_identity_refl.
  - eapply same_identity_trans; [apply IH | apply process_identity].
Qed.

Lemma process_unique_incl (st : DedupState) (r : ref) :
  incl (unique (process t st r)) (unique st ++ [r]).
Proof.
  destruct (process_cases st r) as [(e & _ & ->) | (_ & ->)]; simpl.
  - apply incl_appl, incl_refl.
  - apply incl_refl.
Qed.

Lemma run_unique_incl (rs : list ref) :
  forall st : DedupState,
    incl (unique (fold_left (process t) rs st)) (unique st ++ rs).
Proof.
  induction rs as [| r rs IH]; intros st; simpl.
  - rewrite app_nil_r. apply incl_refl.
  - eapply incl_tran; [apply IH |].
    intros x Hx. apply in_app_or in Hx. destruct Hx as [Hx | Hx].
    + apply process_unique_incl in Hx. apply in_app_or in Hx.
      apply in_or_app. destruct Hx as [Hx | [<- | []]]; [now left |].
      right. now left.
    + apply in_or_app. right. now right.
Qed.

(** The sort only reorders. *)
Lemma insert_by_perm (h : Store) (x : ref) (l : list ref) :
  Permutation (insert_by h x l) (x :: l).
Proof.
  induction l as [| y l IH]; simpl; [apply Permutation_refl |].
  destruct (key_leb (importance (h x)) (importance (h y))).
  - apply Permutation_refl.
  - eapply Permutation_trans; [apply perm_skip, IH | apply perm_swap].
Qed.

Lemma sorted_perm (h : Store) (l : list ref) : Permutation (sorted h l) l.
Proof.
  induction l as [| x l IH]; simpl; [apply Permutation_refl |].
  eapply Permutation_trans; [apply insert_by_perm | now apply perm_skip].
Qed.

Lemma dist_identity (h h' : Store) (a b : ref) :
  (forall x, same_identity (h' x) (h x)) -> dist h' a b = dist h a b.
Proof.
  intros H. unfold dist.
  destruct (H a) as (_ & _ & -> & -> & _).
  destruct (H b) as (_ & _ & -> & -> & _). reflexivity.
Qed.

Lemma dist_sym (h : Store) (a b : ref) : dist h a b = dist h b a.
Proof. unfold dist. apply haversine_sym. Qed.


Lemma within_true (c e : Candidate) :
  within t c e = true <->
  haversine_km (latitude c) (longitude c) (latitude e) (longitude e) < t.
Proof.
  unfold within. destruct (Rlt_dec _ t); split; intros H;
    try discriminate; try reflexivity; try assumption. contradiction.
Qed.

Lemma within_false (c e : Candidate) :
  within t c e = false <->
  t <= haversine_km (latitude c) (longitude c) (latitude e) (longitude e).
Proof.
  unfold within. destruct (Rlt_dec _ t); split; intros H;
    try discriminate; try reflexivity; lra.
Qed.

Lemma find_match_none (h : Store) (r : ref) (u : list ref) :
  find_match t h (h r) u = None <-> Forall (fun e => t <= dist h r e) u.
Proof.
  induction u as [| e u IH]; simpl.
  - split; [constructor | reflexivity].
  - destruct (within t (h r) (h e)) eqn:Hw.
    + split; [discriminate |]. intros HF. inversion HF as [| ? ? Hd _]; subst.
      apply within_true in Hw. unfold dist in Hd. lra.
    + apply within_false in Hw. rewrite IH. split.
      * intros HF. constructor; [exact Hw | exact HF].
      * intros HF. now inversion HF.
Qed.

Lemma find_match_some (h : Store) (c : Candidate) (u : list ref) (e : ref) :
  find_match t h c u = Some e -> In e u /\ within t c (h e) = true.
Proof.
  induction u as [| e' u IH]; simpl; [discriminate |].
  destruct (within t c (h e')) eqn:Hw.
  - intros [= <-]. split; [now left | exact Hw].
  - intros H. destruct (IH H) as [Hin Hwe]. split; [now right | exact Hwe].
Qed.

Lemma pairwise_apart_identity (h h' : Store) (l : list ref) :
  (forall x, same_identity (h' x) (h x)) ->
  pairwise_apart t h l -> pairwise_apart t h' l.
Proof.
  intros H. induction l as [| x l IH]; simpl; [tauto |].
  intros [HF HP]. split; [| now apply IH].
  eapply Forall_impl; [| exact HF]. simpl. intros y.
  now rewrite !(dist_identity h h' _ _ H).
Qed.

Lemma pairwise_apart_snoc (h : Store) (l : list ref) (r : ref) :
  pairwise_apart t h l -> Forall (fun e => t <= dist h r e) l ->
  pairwise_apart t h (l ++ [r]).
Proof.
  induction l as [| x l IH]; simpl; intros HP HF.
  - split; constructor.
  - destruct HP as [HFx HP]. inversion HF as [| ? ? Hrx HF']; subst.
    split; [| now apply IH].
    apply Forall_app. split; [exact HFx |].
    constructor; [| constructor]. rewrite (dist_sym h x r). now split.
Qed.

Lemma pairwise_apart_perm (h : Store) (l l' : list ref) :
  Permutation l l' -> pairwise_apart t h l -> pairwise_apart t h l'.
Proof.
  induction 1 as [| x l l' Hp IH | x y l | l l' l'' _ IH1 _ IH2]; simpl.
  - tauto.
  - intros [HF HP]. split; [| now apply IH].
    eapply Permutation_Forall; eassumption.
  - intros (HFy & HFx & HP). inversion HFy as [| ? ? [Hyx Hxy] HFy']; subst.
    repeat split; try assumption. constructor; [now split | assumption].
  - intros HP. now apply IH2, IH1.
Qed.

(** The scan keeps the representatives pairwise apart. *)
Lemma process_pairwise (st : DedupState) (r : ref) :
  pairwise_apart t (heap st) (unique st) ->
  pairwise_apart t (heap (process t st r)) (unique (process t st r)).
Proof.
  intros HP.
  apply (pairwise_apart_identity (heap st)); [apply process_identity |].
  destruct (process_cases st r) as [(e & _ & ->) | (Hnone & ->)]; simpl.
  - exact HP.
  - apply pairwise_apart_snoc; [exact HP |]. now apply find_match_none.
Qed.

Lemma run_pairwise (rs : list ref) :
  forall st : DedupState,
    pairwise_apart t (heap st) (unique st) ->
    pairwise_apart t (heap (fold_left (process t) rs st))
                   (unique (fold_left (process t) rs st)).
Proof.
  induction rs as [| r rs IH]; intros st HP; simpl; [exact HP |].
  apply IH. now apply process_pairwise.
Qed.

Lemma pairwise_apart_app (h : Store) (u l : list ref) :
  pairwise_apart t h (u ++ l) ->
  pairwise_apart t h l /\
  forall r, In r l -> Forall (fun e => t <= dist h r e) u.
Proof.
  induction u as [| x u IH]; simpl.
  - intros HP. split; [exact HP |]. intros; constructor.
  - intros [HF HP]. destruct (IH HP) as [HPl Hall]. split; [exact HPl |].
    intros r Hr. constructor; [| now apply Hall].
    rewrite Forall_forall in HF. apply (HF r). apply in_or_app. now right.
Qed.

(** Scanning candidates that are apart from the representatives and from
    each other merges nothing. *)
Lemma run_no_merge (l : list ref) :
  forall st : DedupState,
    pairwise_apart t (heap st) (unique st ++ l) ->
    fold_left (process t) l st =
    mkState (heap st) (unique st ++ l) (merged_count st).
Proof.
  induction l as [| r l IH]; intros st HP; simpl.
  - rewrite app_nil_r. now destruct st.
  - assert (Hnone : find_match t (heap st) (heap st r) (unique st) = None).
    { apply find_match_none.
      destruct (pairwise_apart_app _ _ _ HP) as [_ Hall].
      apply Hall. now left. }
    assert (Hstep : process t st r =
                    mkState (heap st) (unique st ++ [r]) (merged_count st)).
    { unfold process. now rewrite Hnone. }
    rewrite Hstep. rewrite IH; simpl.
    + now rewrite <- app_assoc.
    + now rewrite <- app_assoc.
Qed.

(** *** The merge log *)

Lemma absorbed_cons (e : ref) (ev : Event) (log : list Event) :
  absorbed e (ev :: log) =
  if targets e ev then ev_value ev :: absorbed e log else absorbed e log.
Proof. unfold absorbed; simpl. now destruct (targets e ev). Qed.

(** What a representative holds at the end is its initial contents with
    the candidates logged as absorbed merged in, in order. *)
Lemma run_heap_fold (rs : list ref) :
  forall (st : DedupState) (e : ref),
    heap (fold_left (process t) rs st) e =
    fold_left merge_into (absorbed e (run_log t st rs)) (heap st e).
Proof.
  induction rs as [| r rs IH]; intros st e; simpl; [reflexivity |].
  rewrite IH, absorbed_cons. unfold targets; simpl.
  destruct (process_cases st r) as [(e0 & Hfind & ->) | (Hfind & ->)];
    rewrite Hfind; simpl.
  - destruct (Nat.eqb e0 e) eqn:He.
    + apply Nat.eqb_eq in He. subst e0. simpl. now rewrite upd_same.
    + apply Nat.eqb_neq in He. rewrite upd_other by congruence. reflexivity.
  - reflexivity.
Qed.

Lemma run_merged_count (rs : list ref) :
  forall st : DedupState,
    merged_count (fold_left (process t) rs st) =
    (merged_count st +
     List.length (filter (fun ev => negb (is_none (ev_target ev)))
               (run_log t st rs)))%nat.
Proof.
  induction rs as [| r rs IH]; intros st; simpl; [lia |].
  rewrite IH.
  destruct (process_cases st r) as [(e0 & Hfind & ->) | (Hfind & ->)];
    rewrite Hfind; simpl; lia.
Qed.

End Engine.

(** *** The sort orders by key *)

Lemma key_leb_total (k1 k2 : Z * Z) :
  key_leb k1 k2 = false -> key_leb k2 k1 = true.
Proof.
  unfold key_leb. destruct k1 as [a1 b1], k2 as [a2 b2]; simpl.
  intros H. apply orb_false_iff in H. destruct H as [H1 H2].
  apply Z.ltb_ge in H1. apply andb_false_iff in H2.
  apply orb_true_iff.
  destruct (Z.eq_dec a1 a2) as [-> | Hne].
  - right. rewrite Z.eqb_refl. simpl. destruct H2 as [H2 | H2].
    + rewrite Z.eqb_refl in H2. discriminate.
    + apply Z.leb_gt in H2. apply Z.leb_le. lia.
  - left. apply Z.ltb_lt. lia.
Qed.

Lemma key_leb_trans (k1 k2 k3 : Z * Z) :
  key_leb k1 k2 = true -> key_leb k2 k3 = true -> key_leb k1 k3 = true.
Proof.
  unfold key_leb. destruct k1 as [a1 b1], k2 as [a2 b2], k3 as [a3 b3]; simpl.
  rewrite !orb_true_iff, !andb_true_iff, !Z.ltb_lt, !Z.eqb_eq, !Z.leb_le.
  lia.
Qed.

(** The sort returns its input in non-decreasing key order. *)
Lemma insert_by_sorted (h : Store) (x : ref) (l : list ref) :
  StronglySorted
    (fun a b => key_leb (importance (h a)) (importance (h b)) = true) l ->
  StronglySorted
    (fun a b => key_leb (importance (h a)) (importance (h b)) = true)
    (insert_by h x l).
Proof.
  induction l as [| y l IH]; intros Hs; simpl.
  - constructor; constructor.
  - inversion Hs as [| ? ? Hs' Hall]; subst.
    destruct (key_leb (importance (h x)) (importance (h y))) eqn:Hxy.
    + constructor; [exact Hs |]. constructor; [exact Hxy |].
      eapply Forall_impl; [| exact Hall]. simpl. intros z Hz.
      eapply key_leb_trans; eassumption.
    + constructor; [now apply IH |].
      apply (Permutation_Forall (Permutation_sym (insert_by_perm h x l))).
      constructor; [now apply key_leb_total | exact Hall].
Qed.

Lemma sorted_sorted (h : Store) (l : list ref) :
  StronglySorted
    (fun a b => key_leb (importance (h a)) (importance (h b)) = true)
    (sorted h l).
Proof.
  induction l as [| x l IH]; simpl; [constructor |].
  now apply insert_by_sorted.
Qed.

(** *** Folding merges *)

Lemma weather_merge (e c : Candidate) :
  weather_score (merge_into e c) =
  match weather_score e with
  | Some w => Some w
  | None => if truthy_float (weather_score c) then weather_score c else None
  end.
Proof.
  unfold merge_into; simpl.
  destruct (weather_score e) as [w |]; simpl; [reflexivity |].
  now destruct (truthy_float (weather_score c)).
Qed.

Lemma weather_fold_set (ds : list Candidate) :
  forall (e : Candidate) (w : R),
    weather_score e = Some w ->
    weather_score (fold_left merge_into ds e) = Some w.
Proof.
  induction ds as [| d ds IH]; intros e w He; simpl; [exact He |].
  apply IH. now rewrite weather_merge, He.
Qed.

Lemma weather_fold_unset (ds : list Candidate) :
  forall e : Candidate,
    weather_score e = None ->
    weather_score (fold_left merge_into ds e) =
    first_truthy (map weather_score ds).
Proof.
  induction ds as [| d ds IH]; intros e He; simpl; [exact He |].
  destruct (truthy_float (weather_score d)) eqn:Hd.
  - destruct (weather_score d) as [w |] eqn:Hw; [| discriminate].
    apply weather_fold_set. now rewrite weather_merge, He, Hw, Hd.
  - apply IH. now rewrite weather_merge, He, Hd.
Qed.

(* ================================================================= *)
(** ** Whole runs *)

Section Runs.

Lemma pairwise_apart_nth (t : R) (h : Store) (l : list ref) :
  pairwise_apart t h l ->
  forall (i j : nat) (a b : ref),
    i <> j -> nth_error l i = Some a -> nth_error l j = Some b ->
    t <= dist h a b.
Proof.
  induction l as [| x l IH]; intros HP i j a b Hij Ha Hb.
  - destruct i; discriminate.
  - destruct HP as [HF HP]. rewrite Forall_forall in HF.
    destruct i as [| i], j as [| j]; simpl in Ha, Hb.
    + now elim Hij.
    + injection Ha as <-. apply nth_error_In in Hb. now apply HF.
    + injection Hb as <-. apply nth_error_In in Ha. now apply HF.
    + apply (IH HP i j); auto.
Qed.

Lemma dedup_pairwise (h : Store) (candidates : list ref) (t : R) :
  pairwise_apart t (heap (deduplicate_candidates h candidates t))
                 (unique (deduplicate_candidates h candidates t)).
Proof.
  unfold deduplicate_candidates. apply run_pairwise. simpl. exact I.
Qed.

Lemma dedup_rerun (h : Store) (candidates : list ref) (t : R) :
  let st := deduplicate_candidates h candidates t in
  deduplicate_candidates (heap st) (unique st) t =
  mkState (heap st) (sorted (heap st) (unique st)) 0%nat.
Proof.
  intros st. unfold deduplicate_candidates at 1.
  rewrite run_no_merge; simpl; [reflexivity |].
  apply (pairwise_apart_perm t (heap st) (unique st)).
  - apply Permutation_sym, sorted_perm.
  - apply dedup_pairwise.
Qed.

Lemma dedup_heap_fold (h : Store) (candidates : list ref) (t : R) (e : ref) :
  heap (deduplicate_candidates h candidates t) e =
  fold_left merge_into (absorbed e (dedup_log h candidates t)) (h e).
Proof.
  unfold deduplicate_candidates, dedup_log. now rewrite run_heap_fold.
Qed.

Lemma dedup_weather (h : Store) (candidates : list ref) (t : R) (e : ref) :
  weather_score (heap (deduplicate_candidates h candidates t) e) =
  match weather_score (h e) with
  | Some w => Some w
  | None => first_truthy
              (map weather_score (absorbed e (dedup_log h candidates t)))
  end.
Proof.
  rewrite dedup_heap_fold.
  destruct (weather_score (h e)) as [w |] eqn:He.
  - now apply weather_fold_set.
  - now apply weather_fold_unset.
Qed.

End Runs.

(* ================================================================= *)
(** ** Scenario runs *)

Lemma within_same_place (t : R) (c e : Candidate) :
  0 < t -> latitude c = latitude e -> longitude c = longitude e ->
  within t c e = true.
Proof.
  intros Ht Hlat Hlon. apply within_true. rewrite Hlat, Hlon, haversine_same.
  exact Ht.
Qed.

(** Evaluate one scan against candidates stored at the same place. *)
Ltac same_place :=
  match goal with
  | |- context [within ?t ?c ?e] =>
      rewrite (within_same_place t c e ltac:(lra) eq_refl eq_refl)
  end.

Ltac scan := unfold process at 1; simpl.

Lemma zero_ground_run :
  deduplicate_candidates (store_of [zero_ground; five_landing]) [0%nat; 1%nat] 50 =
  mkState (upd (store_of [zero_ground; five_landing]) 0%nat
             (merge_into zero_ground five_landing)) [0%nat] 1%nat.
Proof.
  unfold deduplicate_candidates. simpl sorted. simpl fold_left.
  unfold process at 2. simpl. scan. same_place. reflexivity.
Qed.

Lemma zero_ground_log :
  dedup_log (store_of [zero_ground; five_landing]) [0%nat; 1%nat] 50 =
  [ mkEvent 0%nat zero_ground None; mkEvent 1%nat five_landing (Some 0%nat) ].
Proof.
  unfold dedup_log. simpl sorted. simpl. same_place. reflexivity.
Qed.

Lemma score_step1 :
  process 50 (mkState (store_of [no_score; zero_score; good_score]) [] 0%nat)
    0%nat =
  mkState (store_of [no_score; zero_score; good_score]) [0%nat] 0%nat.
Proof. reflexivity. Qed.

Lemma score_step2 :
  process 50
    (mkState (store_of [no_score; zero_score; good_score]) [0%nat] 0%nat)
    1%nat =
  mkState (upd (store_of [no_score; zero_score; good_score]) 0%nat
             (merge_into no_score zero_score)) [0%nat] 1%nat.
Proof. scan. same_place. reflexivity. Qed.

Lemma score_log :
  dedup_log (store_of [no_score; zero_score; good_score])
    [0%nat; 1%nat; 2%nat] 50 =
  [ mkEvent 0%nat no_score None;
    mkEvent 1%nat zero_score (Some 0%nat);
    mkEvent 2%nat good_score (Some 0%nat) ].
Proof.
  unfold dedup_log. simpl sorted. unfold run_log.
  rewrite score_step1, score_step2. simpl.
  same_place. same_place. reflexivity.
Qed.

Lemma score_run :
  deduplicate_candidates (store_of [no_score; zero_score; good_score])
    [0%nat; 1%nat; 2%nat] 50 =
  mkState (upd (upd (store_of [no_score; zero_score; good_score]) 0%nat
             (merge_into no_score zero_score)) 0%nat
             (merge_into (merge_into no_score zero_score) good_score))
     [0%nat] 2%nat.
Proof.
  unfold deduplicate_candidates. simpl sorted. unfold fold_left.
  rewrite score_step1, score_step2. scan. same_place. reflexivity.
Qed.

Lemma truthy_float_zero : truthy_float (Some 0) = false.
Proof. unfold truthy_float. destruct (Req_dec_T 0 0) as [_ | H]; [reflexivity | now elim H]. Qed.

Lemma truthy_float_nonzero (w : R) : w <> 0 -> truthy_float (Some w) = true.
Proof. intros Hw. unfold truthy_float. destruct (Req_dec_T w 0); [contradiction | reflexivity]. Qed.

(** *** Cable counts under one merge *)

Lemma cable_merge_absent (e c : Candidate) (n : Z) :
  cable_count e = None -> cable_count c = Some n -> n <> 0%Z ->
  cable_count (merge_into e c) = Some n /\ cables (merge_into e c) = cables c.
Proof.
  intros He Hc Hn. unfold merge_into; simpl. rewrite He, Hc; simpl.
  apply Z.eqb_neq in Hn. rewrite Hn; simpl. now split.
Qed.

Lemma cable_merge_both (e c : Candidate) (m n : Z) :
  cable_count e = Some m -> cable_count c = Some n ->
  m <> 0%Z -> n <> 0%Z ->
  cable_count (merge_into e c) = Some (Z.max m n).
Proof.
  intros He Hc Hm Hn. unfold merge_into; simpl. rewrite He, Hc; simpl.
  apply Z.eqb_neq in Hm, Hn. rewrite Hm, Hn; simpl. reflexivity.
Qed.

Lemma cable_merge_zero (e c : Candidate) :
  cable_count e = Some 0%Z ->
  cable_count (merge_into e c) = Some 0%Z.
Proof.
  intros He. unfold merge_into; simpl. rewrite He; simpl. reflexivity.
Qed.

Lemma cable_merge_never_lowers (e c : Candidate) (m : Z) :
  cable_count e = Some m ->
  exists m', cable_count (merge_into e c) = Some m' /\ (m <= m')%Z.
Proof.
  intros He. unfold merge_into; simpl. rewrite He; simpl.
  destruct (negb (m =? 0)%Z && truthy_int (cable_count c)) eqn:Hb; simpl.
  - destruct (cable_count c) as [n |]; simpl.
    + exists (Z.max m n). split; [reflexivity | lia].
    + exists m. split; [reflexivity | lia].
  - exists m. split; [reflexivity | lia].
Qed.

(** *** Cable counts over a whole cluster *)

Lemma max_present_nonneg (l : list (option Z)) (n : Z) :
  Forall (fun o => (0 <= count_or_0 o)%Z) l ->
  max_present l = Some n -> (0 <= n)%Z.
Proof.
  induction l as [| o l IH]; simpl; intros HF Hn; [discriminate |].
  inversion HF as [| ? ? Ho HF']; subst.
  destruct o as [k |]; [| now apply IH].
  simpl in Ho. destruct (max_present l) as [m |].
  - injection Hn as <-. lia.
  - injection Hn as <-. exact Ho.
Qed.

(** Away from a representative whose own count is 0, and with no negative
    counts, the count a cluster ends with is the largest one observed. *)
Lemma cable_fold_max (ds : list Candidate) :
  forall (e : Candidate) (n : Z),
    Forall (fun d => (0 <= count_or_0 (cable_count d))%Z) ds ->
    (0 <= count_or_0 (cable_count e))%Z ->
    cable_count e <> Some 0%Z ->
    cable_count (fold_left merge_into ds e) = Some n ->
    max_present (map cable_count (e :: ds)) = Some n.
Proof.
  induction ds as [| d ds IH]; intros e n HF He0 Hez Hn.
  - simpl in *. now rewrite Hn.
  - inversion HF as [| ? ? Hd HF']; subst. simpl in Hn.
    assert (HL : Forall (fun o => (0 <= count_or_0 o)%Z)
                   (map cable_count ds)).
    { apply Forall_map. exact HF'. }
    pose proof (max_present_nonneg (map cable_count ds)) as Hnn.
    specialize (Hnn) with (1 := HL).
    destruct (cable_count e) as [m |] eqn:Ee;
      destruct (cable_count d) as [k |] eqn:Ed.
    + (* both present *)
      simpl in He0, Hd.
      assert (Hm : m <> 0%Z) by congruence.
      destruct (Z.eq_dec k 0) as [-> | Hk].
      * assert (Ec : cable_count (merge_into e d) = Some m).
        { unfold merge_into; simpl. rewrite Ee, Ed; simpl.
          now rewrite andb_false_r. }
        specialize (IH (merge_into e d) n HF'). cbn [map] in IH.
        rewrite Ec in IH. simpl in IH. specialize (IH He0 Hez Hn).
        simpl. rewrite Ee, Ed.
        destruct (max_present (map cable_count ds)) as [x |].
        -- specialize (Hnn x eq_refl). injection IH as <-. f_equal. lia.
        -- injection IH as <-. f_equal. lia.
      * pose proof (cable_merge_both e d m k Ee Ed Hm Hk) as Ec.
        specialize (IH (merge_into e d) n HF'). cbn [map] in IH.
        rewrite Ec in IH. simpl in IH.
        assert (H1 : (0 <= Z.max m k)%Z) by lia.
        assert (H2 : Some (Z.max m k) <> Some 0%Z)
          by (intros [= E]; lia).
        specialize (IH H1 H2 Hn).
        simpl. rewrite Ee, Ed.
        destruct (max_present (map cable_count ds)) as [x |];
          injection IH as <-; f_equal; lia.
    + (* candidate has no count *)
      assert (Ec : cable_count (merge_into e d) = Some m).
      { unfold merge_into; simpl. rewrite Ee, Ed; simpl.
        now rewrite andb_false_r. }
      specialize (IH (merge_into e d) n HF'). cbn [map] in IH.
      rewrite Ec in IH. specialize (IH He0 Hez Hn).
      simpl. rewrite Ee, Ed. simpl in IH. exact IH.
    + (* representative has no count *)
      simpl in Hd.
      destruct (Z.eq_dec k 0) as [-> | Hk].
      * assert (Ec : cable_count (merge_into e d) = None).
        { unfold merge_into; simpl. rewrite Ee, Ed; simpl. reflexivity. }
        specialize (IH (merge_into e d) n HF'). cbn [map] in IH.
        rewrite Ec in IH. simpl in IH.
        assert (H2 : @None Z <> Some 0%Z) by discriminate.
        specialize (IH (Z.le_refl 0) H2 Hn).
        simpl. rewrite Ee, Ed. rewrite IH.
        specialize (Hnn n IH). f_equal. lia.
      * destruct (cable_merge_absent e d k Ee Ed Hk) as [Ec _].
        specialize (IH (merge_into e d) n HF'). cbn [map] in IH.
        rewrite Ec in IH. simpl in IH.
        assert (H2 : Some k <> Some 0%Z) by congruence.
        specialize (IH Hd H2 Hn).
        simpl. rewrite Ee, Ed. exact IH.
    + (* neither has a count *)
      assert (Ec : cable_count (merge_into e d) = None).
      { unfold merge_into; simpl. rewrite Ee, Ed; simpl. reflexivity. }
      specialize (IH (merge_into e d) n HF'). cbn [map] in IH.
      rewrite Ec in IH. specialize (IH He0 Hez Hn).
      simpl. rewrite Ee, Ed. simpl in IH. exact IH.
Qed.

(** X20. For a candidate whose own cable count is not 0, and when no
    count involved is negative, the cable count it ends with, if any, is
    the largest count among itself and the candidates it absorbed. *)
Lemma dedup_cable_count_max (h : Store) (candidates : list ref) (t : R)
  (e : ref) (n : Z) :
  Forall (fun d => (0 <= count_or_0 (cable_count d))%Z)
         (absorbed e (dedup_log h candidates t)) ->
  (0 <= count_or_0 (cable_count (h e)))%Z ->
  cable_count (h e) <> Some 0%Z ->
  cable_count (heap (deduplicate_candidates h candidates t) e) = Some n ->
  max_present
    (map cable_count (h e :: absorbed e (dedup_log h candidates t))) = Some n.
Proof.
  intros HF He0 Hez Hn. rewrite dedup_heap_fold in Hn.
  now apply cable_fold_max.
Qed.

(** C1. The code at a representative whose own cable count is 0: a
    ground-node candidate with count 0 absorbs a landing with count 5 and
    keeps count 0, although the largest count observed is 5. *)
Theorem zero_count_representative_not_raised :
  let h := store_of [zero_ground; five_landing] in
  let st := deduplicate_candidates h [0%nat; 1%nat] 50 in
  unique st = [0%nat] /\
  absorbed 0%nat (dedup_log h [0%nat; 1%nat] 50) = [five_landing] /\
  cable_count (h 0%nat) = Some 0%Z /\
  cable_count five_landing = Some 5%Z /\
  cable_count (heap st 0%nat) = Some 0%Z /\
  max_present
    (map cable_count (h 0%nat :: absorbed 0%nat (dedup_log h [0%nat; 1%nat] 50)))
  = Some 5%Z.
Proof.
  cbv zeta. rewrite zero_ground_run, zero_ground_log. simpl.
  repeat split; reflexivity.
Qed.

Lemma cable_count_max_fails : ~ spec_cable_count_max.
Proof.
  intros Hspec.
  specialize (Hspec (store_of [zero_ground; five_landing]) [0%nat; 1%nat] 50
                0%nat 0%Z).
  rewrite zero_ground_run, zero_ground_log in Hspec. simpl in Hspec.
  assert (H : Some 5%Z = Some 0%Z) by (apply Hspec; [now left | reflexivity]).
  discriminate.
Qed.

(** C4. The code at a duplicate whose score is 0: a ground node without
    a score absorbs a duplicate whose score is 0.0 and then one whose
    score is 0.7; the first record that provides a score is the one with
    0.0, yet the representative ends with 0.7. *)
Theorem zero_score_duplicate_passed_over :
  let h := store_of [no_score; zero_score; good_score] in
  let st := deduplicate_candidates h [0%nat; 1%nat; 2%nat] 50 in
  unique st = [0%nat] /\
  absorbed 0%nat (dedup_log h [0%nat; 1%nat; 2%nat] 50) =
    [zero_score; good_score] /\
  weather_score (h 0%nat) = None /\
  weather_score zero_score = Some 0 /\
  weather_score good_score = Some (7 / 10) /\
  first_present
    (map weather_score
       (h 0%nat :: absorbed 0%nat (dedup_log h [0%nat; 1%nat; 2%nat] 50)))
  = Some 0 /\
  weather_score (heap st 0%nat) = Some (7 / 10).
Proof.
  cbv zeta. rewrite dedup_weather, score_run, score_log.
  split; [reflexivity |]. split; [reflexivity |].
  split; [reflexivity |]. split; [reflexivity |].
  split; [reflexivity |]. split; [reflexivity |].
  unfold absorbed. simpl filter. simpl map. unfold first_truthy.
  rewrite truthy_float_zero.
  rewrite truthy_float_nonzero by lra. reflexivity.
Qed.

(** Hence the property as the specification words it does not hold of
    the code. *)
Lemma weather_first_provided_fails : ~ spec_weather_first_provided.
Proof.
  intros Hspec.
  specialize (Hspec (store_of [no_score; zero_score; good_score])
                [0%nat; 1%nat; 2%nat] 50 0%nat).
  rewrite dedup_weather, score_log in Hspec.
  assert (Hin : In 0%nat
            (unique (deduplicate_candidates
                       (store_of [no_score; zero_score; good_score])
                       [0%nat; 1%nat; 2%nat] 50)))
    by (rewrite score_run; now left).
  specialize (Hspec Hin).
  unfold absorbed in Hspec. simpl filter in Hspec. simpl map in Hspec.
  unfold first_truthy, first_present in Hspec.
  rewrite truthy_float_zero in Hspec.
  rewrite truthy_float_nonzero in Hspec by lra.
  injection Hspec as H. lra.
Qed.

Lemma process_merge (t : R) (st : DedupState) (r e : ref) :
  find_match t (heap st) (heap st r) (unique st) = Some e ->
  process t st r =
  mkState (upd (heap st) e (merge_into (heap st e) (heap st r)))
          (unique st) (S (merged_count st)).
Proof. intros H. unfold process. now rewrite H. Qed.

Lemma process_append (t : R) (st : DedupState) (r : ref) :
  find_match t (heap st) (heap st r) (unique st) = None ->
  process t st r = mkState (heap st) (unique st ++ [r]) (merged_count st).
Proof. intros H. unfold process. now rewrite H. Qed.

Lemma find_match_head (t : R) (h : Store) (c : Candidate) (e : ref)
  (u : list ref) :
  within t c (h e) = true -> find_match t h c (e :: u) = Some e.
Proof. intros H. simpl. now rewrite H. Qed.

(** *** The equator scenarios *)

Lemma three_lt_PI : 3 < PI.
Proof. pose proof PI2_3_2. lra. Qed.

Lemma quarter_turn_east (lon : R) :
  haversine_km 0 lon 0 (lon + 90) = 6371 * (PI / 2).
Proof.
  rewrite haversine_equator by lra.
  replace (lon + 90 - lon) with 90 by lra. unfold radians. lra.
Qed.

Lemma chain_dist_ab : haversine_km 0 (-90) 0 0 = 6371 * (PI / 2).
Proof.
  replace 0 with (-90 + 90) at 3 by lra. apply quarter_turn_east.
Qed.

Lemma chain_dist_cb : haversine_km 0 90 0 0 = 6371 * (PI / 2).
Proof.
  rewrite haversine_sym. replace 90 with (0 + 90) by lra.
  apply quarter_turn_east.
Qed.

Lemma chain_dist_ac : haversine_km 0 (-90) 0 90 = 6371 * PI.
Proof.
  rewrite haversine_equator by lra. unfold radians. lra.
Qed.

Lemma chain_within_ab : within 15000 chain_a chain_b = true.
Proof.
  apply within_true. simpl. rewrite chain_dist_ab. pose proof PI_4. lra.
Qed.

Lemma chain_within_cb : within 15000 chain_c chain_b = true.
Proof.
  apply within_true. simpl. rewrite chain_dist_cb. pose proof PI_4. lra.
Qed.

Lemma chain_sorted :
  sorted (store_of [chain_a; chain_b; chain_c]) [0%nat; 1%nat; 2%nat] =
  [1%nat; 0%nat; 2%nat].
Proof. reflexivity. Qed.

Lemma chain_step1 :
  process 15000 (mkState (store_of [chain_a; chain_b; chain_c]) [] 0%nat)
    1%nat =
  mkState (store_of [chain_a; chain_b; chain_c]) [1%nat] 0%nat.
Proof. reflexivity. Qed.

Lemma chain_find2 :
  let st := mkState (store_of [chain_a; chain_b; chain_c]) [1%nat] 0%nat in
  find_match 15000 (heap st) (heap st 0%nat) (unique st) = Some 1%nat.
Proof. apply find_match_head. exact chain_within_ab. Qed.

Lemma chain_step2 :
  process 15000
    (mkState (store_of [chain_a; chain_b; chain_c]) [1%nat] 0%nat) 0%nat =
  mkState (upd (store_of [chain_a; chain_b; chain_c]) 1%nat
             (merge_into chain_b chain_a)) [1%nat] 1%nat.
Proof. rewrite (process_merge _ _ _ _ chain_find2). reflexivity. Qed.

Lemma chain_find3 :
  let st := mkState (upd (store_of [chain_a; chain_b; chain_c]) 1%nat
                       (merge_into chain_b chain_a)) [1%nat] 1%nat in
  find_match 15000 (heap st) (heap st 2%nat) (unique st) = Some 1%nat.
Proof.
  apply find_match_head. apply within_true. simpl.
  rewrite chain_dist_cb. pose proof PI_4. lra.
Qed.

Lemma chain_step3 :
  process 15000
    (mkState (upd (store_of [chain_a; chain_b; chain_c]) 1%nat
                (merge_into chain_b chain_a)) [1%nat] 1%nat) 2%nat =
  mkState (upd (upd (store_of [chain_a; chain_b; chain_c]) 1%nat
                  (merge_into chain_b chain_a)) 1%nat
             (merge_into (merge_into chain_b chain_a) chain_c))
          [1%nat] 2%nat.
Proof. rewrite (process_merge _ _ _ _ chain_find3). reflexivity. Qed.

Lemma chain_run :
  deduplicate_candidates (store_of [chain_a; chain_b; chain_c])
    [0%nat; 1%nat; 2%nat] 15000 =
  mkState (upd (upd (store_of [chain_a; chain_b; chain_c]) 1%nat
                  (merge_into chain_b chain_a)) 1%nat
             (merge_into (merge_into chain_b chain_a) chain_c))
          [1%nat] 2%nat.
Proof.
  unfold deduplicate_candidates. rewrite chain_sorted. unfold fold_left.
  now rewrite chain_step1, chain_step2, chain_step3.
Qed.

Lemma chain_log :
  dedup_log (store_of [chain_a; chain_b; chain_c])
    [0%nat; 1%nat; 2%nat] 15000 =
  [ mkEvent 1%nat chain_b None;
    mkEvent 0%nat chain_a (Some 1%nat);
    mkEvent 2%nat chain_c (Some 1%nat) ].
Proof.
  unfold dedup_log. rewrite chain_sorted. unfold run_log.
  rewrite chain_step1, chain_find2, chain_step2, chain_find3.
  reflexivity.
Qed.

(** C8. A chain exists: with threshold 15000 km, [chain_a] and [chain_c]
    are each within the threshold of [chain_b] but not of each other;
    [chain_b] sorts first, and the run returns [chain_b] alone with
    [chain_a] and then [chain_c] merged into it. *)
Theorem chain_merges_into_first :
  exists (h : Store) (a b c : ref) (t : R),
    dist h a b < t /\ dist h b c < t /\ t <= dist h a c /\
    sorted h [a; b; c] = [b; a; c] /\
    unique (deduplicate_candidates h [a; b; c] t) = [b] /\
    merged_count (deduplicate_candidates h [a; b; c] t) = 2%nat /\
    dedup_log h [a; b; c] t =
      [ mkEvent b (h b) None;
        mkEvent a (h a) (Some b);
        mkEvent c (h c) (Some b) ] /\
    merged_sources (heap (deduplicate_candidates h [a; b; c] t) b) =
      Some ["ground_node"; "cable_landing"; "cable_landing"]%string.
Proof.
  exists (store_of [chain_a; chain_b; chain_c]), 0%nat, 1%nat, 2%nat, 15000.
  unfold ref. rewrite chain_run, chain_log, chain_sorted.
  pose proof PI_4 as Hhi. pose proof three_lt_PI as Hlo.
  repeat split.
  - unfold dist; simpl. rewrite chain_dist_ab. lra.
  - unfold dist; simpl. rewrite haversine_sym, chain_dist_cb. lra.
  - unfold dist; simpl. rewrite chain_dist_ac. lra.
Qed.

(** *** Two far-apart candidates *)

Lemma apart_find :
  let st := mkState (store_of [chain_b; chain_c]) [0%nat] 0%nat in
  find_match 50 (heap st) (heap st 1%nat) (unique st) = None.
Proof.
  apply find_match_none. constructor; [| constructor].
  unfold dist; simpl. rewrite chain_dist_cb. pose proof three_lt_PI. lra.
Qed.

Lemma apart_run :
  deduplicate_candidates (store_of [chain_b; chain_c]) [0%nat; 1%nat] 50 =
  mkState (store_of [chain_b; chain_c]) [0%nat; 1%nat] 0%nat.
Proof.
  unfold deduplicate_candidates.
  change (sorted (store_of [chain_b; chain_c]) [0%nat; 1%nat])
    with [0%nat; 1%nat].
  unfold fold_left.
  change (process 50 (mkState (store_of [chain_b; chain_c]) [] 0%nat) 0%nat)
    with (mkState (store_of [chain_b; chain_c]) [0%nat] 0%nat).
  now rewrite (process_append _ _ _ apart_find).
Qed.

(** C2. In the list returned, any two candidates at different positions
    are at great-circle distance at least the threshold from each other. *)
Theorem dedup_output_apart (h : Store) (candidates : list ref) (t : R)
  (i j : nat) (a b : ref) :
  i <> j ->
  nth_error (unique (deduplicate_candidates h candidates t)) i = Some a ->
  nth_error (unique (deduplicate_candidates h candidates t)) j = Some b ->
  t <= haversine_km
         (latitude (heap (deduplicate_candidates h candidates t) a))
         (longitude (heap (deduplicate_candidates h candidates t) a))
         (latitude (heap (deduplicate_candidates h candidates t) b))
         (longitude (heap (deduplicate_candidates h candidates t) b)).
Proof.
  intros Hij Ha Hb.
  exact (pairwise_apart_nth t _ _ (dedup_pairwise h candidates t)
           i j a b Hij Ha Hb).
Qed.

(** The theorem on two candidates a quarter turn apart, threshold 50. *)
Lemma dedup_output_apart_witness :
  50 <= dist
          (heap (deduplicate_candidates (store_of [chain_b; chain_c])
                   [0%nat; 1%nat] 50)) 0%nat 1%nat.
Proof.
  refine (dedup_output_apart (store_of [chain_b; chain_c])
            [0%nat; 1%nat] 50 0%nat 1%nat 0%nat 1%nat _ _ _).
  - discriminate.
  - rewrite apart_run. reflexivity.
  - rewrite apart_run. reflexivity.
Defined.

(** C5. Running the engine again on what it returned, with the same
    threshold, merges nothing and returns as many candidates; the store is
    left as it was and the list is only reordered. *)
Theorem dedup_idempotent_count (h : Store) (candidates : list ref) (t : R) :
  let st := deduplicate_candidates h candidates t in
  let st' := deduplicate_candidates (heap st) (unique st) t in
  merged_count st' = 0%nat /\
  List.length (unique st') = List.length (unique st) /\
  Permutation (unique st') (unique st) /\
  heap st' = heap st.
Proof.
  cbv zeta. rewrite dedup_rerun. simpl.
  split; [reflexivity |].
  split; [apply Permutation_length, sorted_perm |].
  split; [apply sorted_perm | reflexivity].
Qed.

Lemma run_unique_mono (t : R) (rs : list ref) :
  forall (st : DedupState) (x : ref),
    In x (unique st) -> In x (unique (fold_left (process t) rs st)).
Proof.
  induction rs as [| r rs IH]; intros st x Hx; simpl; [exact Hx |].
  apply IH. destruct (process_cases t st r) as [(e & _ & E) | (_ & E)];
    rewrite E; simpl; [exact Hx | apply in_or_app; now left].
Qed.

(** Only representatives are written. *)
Lemma run_untouched (t : R) (rs : list ref) :
  forall (st : DedupState) (x : ref),
    ~ In x (unique (fold_left (process t) rs st)) ->
    heap (fold_left (process t) rs st) x = heap st x.
Proof.
  induction rs as [| r rs IH]; intros st x Hx; simpl in *; [reflexivity |].
  rewrite (IH _ _ Hx).
  destruct (process_cases t st r) as [(e & Hf & E) | (Hf & E)];
    rewrite E; simpl; [| reflexivity].
  apply upd_other. intros ->. apply Hx.
  apply run_unique_mono. rewrite E. simpl.
  apply (find_match_some _ _ _ _ _ Hf).
Qed.

(** C9. The engine creates no candidate: every returned reference is one
    of the input references, every stored candidate keeps its id, name,
    latitude, longitude, zone, source, tier and demand, and a candidate
    that is not returned is not written at all. *)
Theorem dedup_frame (h : Store) (candidates : list ref) (t : R) :
  let st := deduplicate_candidates h candidates t in
  incl (unique st) candidates /\
  (forall r : ref, same_identity (heap st r) (h r)) /\
  (forall r : ref, ~ In r (unique st) -> heap st r = h r).
Proof.
  cbv zeta. unfold deduplicate_candidates. split; [| split].
  - intros r Hr. apply run_unique_incl in Hr. simpl in Hr.
    apply (Permutation_in r (sorted_perm h candidates) Hr).
  - intros r. apply (run_identity t _ (mkState h [] 0%nat) r).
  - intros r Hr. now rewrite (run_untouched t _ _ _ Hr).
Qed.

(** *** A ground node and a cable landing at one site *)

Lemma ground_sorts_first (h : Store) (g c : ref) (cands : list ref) :
  source (h g) = "ground_node" -> source (h c) = "cable_landing" ->
  cands = [g; c] \/ cands = [c; g] ->
  sorted h cands = [g; c].
Proof.
  intros Hg Hc Hcands.
  assert (Hgc : key_leb (importance (h g)) (importance (h c)) = true).
  { unfold key_leb, importance. rewrite Hg, Hc. reflexivity. }
  assert (Hcg : key_leb (importance (h c)) (importance (h g)) = false).
  { unfold key_leb, importance. rewrite Hg, Hc. reflexivity. }
  destruct Hcands as [-> | ->]; simpl.
  - now rewrite Hgc.
  - now rewrite Hcg.
Qed.

Lemma ground_absorbs_landing (h : Store) (g c : ref) (t : R)
  (cands : list ref) :
  source (h g) = "ground_node" -> source (h c) = "cable_landing" ->
  dist h c g < t ->
  cands = [g; c] \/ cands = [c; g] ->
  deduplicate_candidates h cands t =
  mkState (upd h g (merge_into (h g) (h c))) [g] 1%nat.
Proof.
  intros Hg Hc Hd Hcands. unfold deduplicate_candidates.
  rewrite (ground_sorts_first h g c cands Hg Hc Hcands). unfold fold_left.
  change (process t (mkState h [] 0%nat) g) with (mkState h [g] 0%nat).
  rewrite (process_merge t (mkState h [g] 0%nat) c g); [reflexivity |].
  apply find_match_head. now apply within_true.
Qed.

Lemma scenario_loaded :
  (load_ground_nodes [scenario_node] ++ load_cable_landings [scenario_point])%list
  = [scenario_ground; scenario_landing].
Proof. reflexivity. Qed.

(** C3. A ground-node record and a cable-landing record within the
    threshold of each other, given in either order, come back as one
    candidate: the ground node, with both source tags listed in order.
    In the scenario at threshold 50 km that candidate also carries the
    landing's five cables. *)
Theorem priority_preservation :
  (forall (h : Store) (g c : ref) (t : R) (cands : list ref),
     source (h g) = "ground_node" ->
     source (h c) = "cable_landing" ->
     merged_sources (h g) = None ->
     haversine_km (latitude (h c)) (longitude (h c))
                  (latitude (h g)) (longitude (h g)) < t ->
     cands = [g; c] \/ cands = [c; g] ->
     let st := deduplicate_candidates h cands t in
     unique st = [g] /\
     source (heap st g) = "ground_node" /\
     merged_sources (heap st g) = Some ["ground_node"; "cable_landing"]) /\
  (let st := dedup_fresh
               (load_ground_nodes [scenario_node] ++
                load_cable_landings [scenario_point])%list 50 in
   result st =
   [ mkCandidate (Some "gn-nyc") (Some "Node") 40 (-74) (assign_zone (-74)) "ground_node"
       None None None (Some 5%Z) (Some ["cable-a"])
       (Some ["ground_node"; "cable_landing"]) ]).
Proof.
  split.
  - intros h g c t cands Hg Hc Hms Hd Hcands. cbv zeta.
    rewrite (ground_absorbs_landing h g c t cands Hg Hc Hd Hcands). simpl.
    rewrite upd_same. unfold merge_into; simpl. rewrite Hms, Hg, Hc.
    repeat split.
  - cbv zeta. rewrite scenario_loaded. unfold dedup_fresh.
    change (seq 0 (List.length [scenario_ground; scenario_landing]))
      with [0%nat; 1%nat].
    rewrite (ground_absorbs_landing
               (store_of [scenario_ground; scenario_landing])
               0%nat 1%nat 50 [0%nat; 1%nat] eq_refl eq_refl).
    + reflexivity.
    + unfold dist. simpl. exact haversine_scenario.
    + now left.
Qed.

(** The general statement at the scenario's two candidates. *)
Lemma priority_preservation_witness :
  let st := deduplicate_candidates
              (store_of [scenario_ground; scenario_landing])
              [0%nat; 1%nat] 50 in
  unique st = [0%nat] /\
  source (heap st 0%nat) = "ground_node" /\
  merged_sources (heap st 0%nat) = Some ["ground_node"; "cable_landing"].
Proof.
  refine (proj1 priority_preservation
            (store_of [scenario_ground; scenario_landing])
            0%nat 1%nat 50 [0%nat; 1%nat] _ _ _ _ _).
  - reflexivity.
  - reflexivity.
  - reflexivity.
  - simpl. exact haversine_scenario.
  - now left.
Defined.

(* ================================================================= *)
(** ** Further properties: zones and normaliser *)

Lemma assign_zone_range (lon : R) : declared_zone (assign_zone lon).
Proof.
  unfold declared_zone, assign_zone, ZONES, first_zone.
  destruct (in_zone lon _); [tauto |].
  destruct (in_zone lon _); [tauto |].
  destruct (in_zone lon _); tauto.
Qed.

(** X5. Whatever the longitude, also below -180 or from 180 up, the zone
    assigned is one of the three declared names. *)
Theorem assign_zone_declared (lon : R) : declared_zone (assign_zone lon).
Proof. apply assign_zone_range. Qed.

(** X6. Every candidate a loader creates is tagged with the zone of its
    own longitude, hence with a declared zone, carries its loader's
    source tag, and has no merged sources. *)
Theorem loaded_candidates_zoned (nodes : list GroundNode)
  (points : list LandingPoint) (c : Candidate) :
  In c (load_ground_nodes nodes ++ load_cable_landings points)%list ->
  zone c = assign_zone (longitude c) /\
  declared_zone (zone c) /\
  merged_sources c = None /\
  (In c (load_ground_nodes nodes) -> source c = "ground_node") /\
  (In c (load_cable_landings points) -> source c = "cable_landing").
Proof.
  intros Hin.
  assert (Hg : In c (load_ground_nodes nodes) ->
               zone c = assign_zone (longitude c) /\
               merged_sources c = None /\ source c = "ground_node").
  { intros H. unfold load_ground_nodes in H.
    apply fold_ground_nodes_in in H. destruct H as [[] | (n & _ & Hf)].
    destruct Hf as (_ & _ & Hs & Hz & _ & _ & _ & Hm). tauto. }
  assert (Hl : In c (load_cable_landings points) ->
               zone c = assign_zone (longitude c) /\
               merged_sources c = None /\ source c = "cable_landing").
  { intros H. unfold load_cable_landings in H.
    apply fold_cable_landings_in in H. destruct H as [[] | (p & _ & Hf)].
    destruct Hf as (_ & _ & Hs & Hz & _ & _ & _ & Hm). tauto. }
  assert (Hz : zone c = assign_zone (longitude c) /\ merged_sources c = None).
  { apply in_app_or in Hin. destruct Hin as [H | H];
      [apply Hg in H | apply Hl in H]; tauto. }
  destruct Hz as [Hz Hm].
  split; [exact Hz |]. split; [rewrite Hz; apply assign_zone_range |].
  split; [exact Hm |]. split; intros H; [apply Hg in H | apply Hl in H]; tauto.
Qed.

Lemma loaded_candidates_zoned_witness :
  zone bare_candidate = assign_zone (longitude bare_candidate) /\
  declared_zone (zone bare_candidate).
Proof.
  assert (Hin : In bare_candidate
                  (load_ground_nodes [] ++ load_cable_landings [bare_point])%list)
    by (left; reflexivity).
  destruct (loaded_candidates_zoned [] [bare_point] bare_candidate Hin)
    as (Hz & Hd & _).
  now split.
Defined.

Lemma fold_ground_coords (nodes : list GroundNode) :
  forall acc : list Candidate,
    map (fun c => (Some (latitude c), Some (longitude c)))
        (fold_left load_ground_node nodes acc) =
    (map (fun c => (Some (latitude c), Some (longitude c))) acc ++
     map (fun n => (gn_latitude n, gn_longitude n))
         (filter node_kept nodes))%list.
Proof.
  induction nodes as [| n nodes IH]; intros acc; simpl.
  - now rewrite app_nil_r.
  - rewrite IH. unfold load_ground_node, node_kept.
    destruct (gn_latitude n) as [lat |] eqn:Elat; [| reflexivity].
    destruct (gn_longitude n) as [lon |] eqn:Elon; [| reflexivity].
    rewrite map_app, <- app_assoc. simpl. now rewrite Elat, Elon.
Qed.

Lemma fold_landing_coords (points : list LandingPoint) :
  forall acc : list Candidate,
    map (fun c => (Some (latitude c), Some (longitude c)))
        (fold_left load_cable_landing points acc) =
    (map (fun c => (Some (latitude c), Some (longitude c))) acc ++
     map (fun p => (lp_latitude p, lp_longitude p))
         (filter point_kept points))%list.
Proof.
  induction points as [| p points IH]; intros acc; simpl.
  - now rewrite app_nil_r.
  - rewrite IH. unfold load_cable_landing, point_kept.
    destruct (lp_latitude p) as [lat |] eqn:Elat; [| reflexivity].
    destruct (lp_longitude p) as [lon |] eqn:Elon; [| reflexivity].
    rewrite map_app, <- app_assoc. simpl. now rewrite Elat, Elon.
Qed.

(** X7. A loader drops exactly the records that lack a latitude or a
    longitude and keeps the others in input order with their
    coordinates: as many candidates come out as records have both. *)
Theorem loaders_filter_coordinates (nodes : list GroundNode)
  (points : list LandingPoint) :
  map (fun c => (Some (latitude c), Some (longitude c)))
      (load_ground_nodes nodes) =
  map (fun n => (gn_latitude n, gn_longitude n)) (filter node_kept nodes) /\
  map (fun c => (Some (latitude c), Some (longitude c)))
      (load_cable_landings points) =
  map (fun p => (lp_latitude p, lp_longitude p)) (filter point_kept points) /\
  List.length (load_ground_nodes nodes) = List.length (filter node_kept nodes) /\
  List.length (load_cable_landings points) =
  List.length (filter point_kept points).
Proof.
  pose proof (fold_ground_coords nodes []) as Hg.
  pose proof (fold_landing_coords points []) as Hl.
  simpl in Hg, Hl. fold (load_ground_nodes nodes) in Hg.
  fold (load_cable_landings points) in Hl.
  split; [exact Hg |]. split; [exact Hl |].
  split.
  - apply (f_equal (@List.length _)) in Hg. now rewrite !length_map in Hg.
  - apply (f_equal (@List.length _)) in Hl. now rewrite !length_map in Hl.
Qed.

Lemma decimal_inj (i j : nat) : decimal i = decimal j -> i = j.
Proof.
  unfold decimal. intros H.
  apply DecimalNat.Unsigned.to_uint_inj.
  pose proof (NilEmpty.usu (Nat.to_uint i)) as Hi.
  pose proof (NilEmpty.usu (Nat.to_uint j)) as Hj.
  rewrite H in Hi. rewrite Hi in Hj. now injection Hj.
Qed.

Lemma fallback_ids_nodup (prefix : string) (k : nat) :
  NoDup (map (fun i => Some (prefix ++ decimal i)%string) (seq 0 k)).
Proof.
  apply Injective_map_NoDup; [| apply seq_NoDup].
  intros i j H. injection H as H. apply decimal_inj.
  induction prefix as [| ch prefix IH]; simpl in H; [exact H |].
  injection H as H. now apply IH.
Qed.

Lemma fold_ground_ids (nodes : list GroundNode) :
  (forall n, In n nodes -> gn_id n = Absent) ->
  forall acc : list Candidate,
    map id (fold_left load_ground_node nodes acc) =
    (map id acc ++
     map (fun i => Some ("gn-" ++ decimal i)%string)
         (seq (List.length acc) (List.length (filter node_kept nodes))))%list.
Proof.
  induction nodes as [| n nodes IH]; intros Hid acc; simpl.
  - now rewrite app_nil_r.
  - rewrite IH by (intros m Hm; apply Hid; now right).
    unfold load_ground_node, node_kept.
    rewrite (Hid n) by now left.
    destruct (gn_latitude n) as [lat |]; [| reflexivity].
    destruct (gn_longitude n) as [lon |]; [| reflexivity].
    rewrite map_app, length_app, <- app_assoc. simpl.
    now rewrite Nat.add_1_r.
Qed.

Lemma fold_landing_ids (points : list LandingPoint) :
  (forall p, In p points -> lp_id p = Absent) ->
  forall acc : list Candidate,
    map id (fold_left load_cable_landing points acc) =
    (map id acc ++
     map (fun i => Some ("cl-" ++ decimal i)%string)
         (seq (List.length acc) (List.length (filter point_kept points))))%list.
Proof.
  induction points as [| p points IH]; intros Hid acc; simpl.
  - now rewrite app_nil_r.
  - rewrite IH by (intros m Hm; apply Hid; now right).
    unfold load_cable_landing, point_kept.
    rewrite (Hid p) by now left.
    destruct (lp_latitude p) as [lat |]; [| reflexivity].
    destruct (lp_longitude p) as [lon |]; [| reflexivity].
    rewrite map_app, length_app, <- app_assoc. simpl.
    now rewrite Nat.add_1_r.
Qed.

(** X8. When no record has an ["id"] key, the candidates of a loader
    are numbered by their position among the records kept, not among the
    records read: the ids are the prefix followed by 0, 1, 2, ... in
    order, and no two are equal. *)
Theorem fallback_ids_by_position (nodes : list GroundNode)
  (points : list LandingPoint) :
  (forall n, In n nodes -> gn_id n = Absent) ->
  (forall p, In p points -> lp_id p = Absent) ->
  map id (load_ground_nodes nodes) =
    map (fun i => Some ("gn-" ++ decimal i)%string)
        (seq 0 (List.length (load_ground_nodes nodes))) /\
  map id (load_cable_landings points) =
    map (fun i => Some ("cl-" ++ decimal i)%string)
        (seq 0 (List.length (load_cable_landings points))) /\
  NoDup (map id (load_ground_nodes nodes ++ load_cable_landings points)%list).
Proof.
  intros Hn Hp.
  pose proof (fold_ground_ids nodes Hn []) as Hg.
  pose proof (fold_landing_ids points Hp []) as Hl.
  simpl in Hg, Hl.
  fold (load_ground_nodes nodes) in Hg.
  fold (load_cable_landings points) in Hl.
  assert (Lg : List.length (load_ground_nodes nodes) =
               List.length (filter node_kept nodes)).
  { apply (f_equal (@List.length _)) in Hg.
    now rewrite !length_map, length_seq in Hg. }
  assert (Ll : List.length (load_cable_landings points) =
               List.length (filter point_kept points)).
  { apply (f_equal (@List.length _)) in Hl.
    now rewrite !length_map, length_seq in Hl. }
  rewrite Lg, Ll. split; [exact Hg |]. split; [exact Hl |].
  rewrite map_app, Hg, Hl.
  apply NoDup_app.
  - exact (fallback_ids_nodup "gn-" _).
  - exact (fallback_ids_nodup "cl-" _).
  - intros s Hs1 Hs2.
    apply in_map_iff in Hs1. destruct Hs1 as (i & <- & _).
    apply in_map_iff in Hs2. destruct Hs2 as (j & Hj & _).
    simpl in Hj. discriminate.
Qed.

Lemma fallback_ids_by_position_witness :
  map id (load_cable_landings
            [mkLandingPoint None (Some 3) Absent Absent Absent Absent; bare_point])
  = [Some "cl-0"].
Proof.
  refine (proj1 (proj2 (fallback_ids_by_position []
            [mkLandingPoint None (Some 3) Absent Absent Absent Absent; bare_point]
            _ _))).
  - intros n [].
  - intros p [<- | [<- | []]]; reflexivity.
Defined.

(* ================================================================= *)
(** ** Further properties: zone summariser *)

Lemma count_zone_cons (z : string) (c : Candidate) (cs : list Candidate) :
  count_zone z (c :: cs) =
  ((if String.eqb (zone c) z then 1 else 0) + count_zone z cs)%nat.
Proof.
  unfold count_zone; simpl. now destruct (String.eqb (zone c) z).
Qed.

Lemma fold_bump (cs : list Candidate) :
  forall a e p : nat,
    fold_left (fun zone_counts c => bump (zone c) zone_counts) cs
      [("AMERICAS", a); ("EMEA", e); ("APAC", p)] =
    [ ("AMERICAS", (a + count_zone "AMERICAS" cs)%nat);
      ("EMEA", (e + count_zone "EMEA" cs)%nat);
      ("APAC", (p + count_zone "APAC" cs)%nat) ].
Proof.
  induction cs as [| c cs IH]; intros a e p.
  - unfold count_zone; simpl. now rewrite !Nat.add_0_r.
  - cbn [fold_left]. rewrite !count_zone_cons. unfold bump.
    rewrite (String.eqb_sym "AMERICAS"), (String.eqb_sym "EMEA"),
      (String.eqb_sym "APAC").
    destruct (String.eqb (zone c) "AMERICAS") eqn:E1;
      destruct (String.eqb (zone c) "EMEA") eqn:E2;
      destruct (String.eqb (zone c) "APAC") eqn:E3;
      try (apply String.eqb_eq in E1); try (apply String.eqb_eq in E2);
      try (apply String.eqb_eq in E3); try congruence;
      rewrite IH; cbn [Nat.add]; rewrite ?Nat.add_succ_r; reflexivity.
Qed.

Lemma summarize_eq (cs : list Candidate) :
  summarize_by_zone cs =
  [ ("AMERICAS", count_zone "AMERICAS" cs);
    ("EMEA", count_zone "EMEA" cs);
    ("APAC", count_zone "APAC" cs) ].
Proof. unfold summarize_by_zone. now rewrite fold_bump. Qed.

(** X9. The summary always lists the three declared zones, in
    declaration order, each with the number of candidates tagged with
    it; a zone without candidates is listed with 0 and a candidate with
    any other tag is passed over. *)
Theorem summarize_by_zone_counts (cs : list Candidate) :
  summarize_by_zone cs =
  [ ("AMERICAS", count_zone "AMERICAS" cs);
    ("EMEA", count_zone "EMEA" cs);
    ("APAC", count_zone "APAC" cs) ].
Proof. apply summarize_eq. Qed.

Lemma count_zone_total (cs : list Candidate) :
  Forall (fun c => declared_zone (zone c)) cs ->
  (count_zone "AMERICAS" cs + count_zone "EMEA" cs + count_zone "APAC" cs
   = List.length cs)%nat.
Proof.
  induction 1 as [| c cs Hc _ IH]; [reflexivity |].
  rewrite !count_zone_cons. simpl List.length.
  destruct Hc as [-> | [-> | ->]]; simpl; lia.
Qed.

Lemma count_zone_bound (cs : list Candidate) :
  (count_zone "AMERICAS" cs + count_zone "EMEA" cs + count_zone "APAC" cs
   <= List.length cs)%nat.
Proof.
  induction cs as [| c cs IH]; [apply Nat.le_refl |].
  rewrite !count_zone_cons. simpl List.length.
  destruct (String.eqb_spec (zone c) "AMERICAS") as [E1 | N1].
  - rewrite E1. simpl. lia.
  - destruct (String.eqb_spec (zone c) "EMEA") as [E2 | N2].
    + rewrite E2. simpl. lia.
    + destruct (String.eqb (zone c) "APAC"); lia.
Qed.

(** X10. The counts of the summary never add up to more than the number
    of candidates, and add up to exactly that number when every candidate
    is tagged with a declared zone. *)
Theorem summarize_by_zone_total (cs : list Candidate) :
  (list_sum (map snd (summarize_by_zone cs)) <= List.length cs)%nat /\
  (Forall (fun c => declared_zone (zone c)) cs ->
   list_sum (map snd (summarize_by_zone cs)) = List.length cs).
Proof.
  rewrite summarize_eq. simpl. rewrite Nat.add_0_r, Nat.add_assoc.
  split; [apply count_zone_bound | apply count_zone_total].
Qed.

Lemma summarize_by_zone_total_witness :
  list_sum (map snd (summarize_by_zone [chain_a; chain_b; chain_c])) = 3%nat.
Proof.
  apply (proj2 (summarize_by_zone_total [chain_a; chain_b; chain_c])).
  repeat constructor; unfold declared_zone; simpl; tauto.
Defined.

(** X11. The summary does not depend on the order of the candidates. *)
Theorem summarize_by_zone_permutation (cs cs' : list Candidate) :
  Permutation cs cs' -> summarize_by_zone cs = summarize_by_zone cs'.
Proof.
  intros HP. rewrite !summarize_eq. unfold count_zone.
  assert (H : forall z,
            List.length (filter (fun c => String.eqb (zone c) z) cs) =
            List.length (filter (fun c => String.eqb (zone c) z) cs')).
  { intros z. apply Permutation_length.
    induction HP as [| x l l' _ IH | x y l | l l' l'' _ IH1 _ IH2]; simpl.
    - apply Permutation_refl.
    - destruct (String.eqb (zone x) z); [now apply perm_skip | exact IH].
    - destruct (String.eqb (zone x) z), (String.eqb (zone y) z);
        try apply Permutation_refl. apply perm_swap.
    - eapply Permutation_trans; eassumption. }
  now rewrite !H.
Qed.

Lemma summarize_by_zone_permutation_witness :
  summarize_by_zone [chain_a; chain_b] = summarize_by_zone [chain_b; chain_a].
Proof. apply summarize_by_zone_permutation. apply perm_swap. Defined.

(* ================================================================= *)
(** ** Further properties: deduplication engine *)

Lemma run_conservation (t : R) (rs : list ref) :
  forall st : DedupState,
    (List.length (unique (fold_left (process t) rs st)) +
     merged_count (fold_left (process t) rs st) =
     List.length (unique st) + merged_count st + List.length rs)%nat.
Proof.
  induction rs as [| r rs IH]; intros st; simpl; [lia |].
  rewrite IH.
  destruct (process_cases t st r) as [(e & _ & ->) | (_ & ->)]; simpl.
  - lia.
  - rewrite length_app. simpl. lia.
Qed.

(** X12. Every input candidate is accounted for once: the number of
    candidates returned plus the number of merges reported is the number
    of candidates given. *)
Theorem dedup_conservation (h : Store) (candidates : list ref) (t : R) :
  (List.length (unique (deduplicate_candidates h candidates t)) +
   merged_count (deduplicate_candidates h candidates t) =
   List.length candidates)%nat.
Proof.
  unfold deduplicate_candidates. rewrite run_conservation. simpl.
  apply Permutation_length, sorted_perm.
Qed.




Lemma run_coverage (t : R) (rs : list ref) :
  forall (st : DedupState) (r : ref),
    In r rs ->
    In r (unique (fold_left (process t) rs st)) \/
    exists e, In e (unique (fold_left (process t) rs st)) /\
              dist (heap st) r e < t.
Proof.
  induction rs as [| x rs IH]; intros st r Hin; [destruct Hin |].
  simpl. destruct Hin as [-> | Hin].
  - destruct (process_cases t st r) as [(e & Hf & E) | (_ & E)].
    + right. exists e. destruct (find_match_some t _ _ _ _ Hf) as [He Hw].
      split.
      * apply run_unique_mono. rewrite E. exact He.
      * apply within_true in Hw. exact Hw.
    + left. apply run_unique_mono. rewrite E. simpl.
      apply in_or_app. right. now left.
  - destruct (IH (process t st x) r Hin) as [H | (e & He & Hd)].
    + now left.
    + right. exists e. split; [exact He |].
      rewrite <- (dist_identity (heap st) (heap (process t st x)));
        [exact Hd | intros y; apply process_identity].
Qed.

(** X14. No candidate is lost without a nearby survivor: every input
    candidate is either returned itself or lies within the threshold of
    a returned representative. *)
Theorem dedup_coverage (h : Store) (candidates : list ref) (t : R)
  (r : ref) :
  In r candidates ->
  In r (unique (deduplicate_candidates h candidates t)) \/
  exists e,
    In e (unique (deduplicate_candidates h candidates t)) /\
    haversine_km (latitude (h r)) (longitude (h r))
                 (latitude (h e)) (longitude (h e)) < t.
Proof.
  intros Hin. unfold deduplicate_candidates.
  apply run_coverage.
  apply (Permutation_in r (Permutation_sym (sorted_perm h candidates)) Hin).
Qed.

Lemma dedup_coverage_witness :
  In 2%nat
     (unique (deduplicate_candidates (store_of [chain_a; chain_b; chain_c])
                [0%nat; 1%nat; 2%nat] 15000)) \/
  exists e,
    In e (unique (deduplicate_candidates (store_of [chain_a; chain_b; chain_c])
                    [0%nat; 1%nat; 2%nat] 15000)) /\
    haversine_km (latitude (store_of [chain_a; chain_b; chain_c] 2%nat))
                 (longitude (store_of [chain_a; chain_b; chain_c] 2%nat))
                 (latitude (store_of [chain_a; chain_b; chain_c] e))
                 (longitude (store_of [chain_a; chain_b; chain_c] e)) < 15000.
Proof.
  apply dedup_coverage. right. right. now left.
Defined.

(* ================================================================= *)
(** ** Further properties: importance order *)

Lemma key_le_precedes (h : Store) (a b : ref) :
  key_le h a b <-> precedes (h a) (h b).
Proof.
  unfold key_le, precedes, key_leb, importance; simpl.
  destruct (String.eqb_spec (source (h a)) "ground_node") as [Ea | Na];
    destruct (String.eqb_spec (source (h b)) "ground_node") as [Eb | Nb];
    simpl; rewrite ?Z.leb_le; split; intros H.
  - right. split; [tauto | lia].
  - destruct H as [[_ H] | [_ H]]; [contradiction | lia].
  - left. now split.
  - reflexivity.
  - discriminate.
  - destruct H as [[H _] | [[_ H] _]]; [contradiction | now elim Na; apply H].
  - right. split; [tauto | lia].
  - destruct H as [[H _] | [_ H]]; [contradiction | lia].
Qed.

Lemma key_leb_refl (k : Z * Z) : key_leb k k = true.
Proof.
  unfold key_leb. rewrite Z.eqb_refl, Z.leb_refl. apply orb_true_r.
Qed.

Lemma has_key_importance (c : Candidate) (k : Z * Z) :
  has_key k c = true -> importance c = k.
Proof.
  unfold has_key. intros H. apply andb_true_iff in H. destruct H as [H1 H2].
  apply Z.eqb_eq in H1, H2. destruct (importance c), k; simpl in *. congruence.
Qed.

Lemma insert_by_stable (h : Store) (k : Z * Z) (x : ref) (l : list ref) :
  filter (fun r => has_key k (h r)) (insert_by h x l) =
  filter (fun r => has_key k (h r)) (x :: l).
Proof.
  induction l as [| y l IH]; [reflexivity |].
  cbn [insert_by].
  destruct (key_leb (importance (h x)) (importance (h y))) eqn:Hxy;
    [reflexivity |].
  cbn [filter] in *. rewrite IH.
  destruct (has_key k (h x)) eqn:Hx; [| reflexivity].
  destruct (has_key k (h y)) eqn:Hy; [| reflexivity].
  apply has_key_importance in Hx, Hy.
  rewrite Hx, Hy, key_leb_refl in Hxy. discriminate.
Qed.

Lemma sorted_stable (h : Store) (k : Z * Z) (l : list ref) :
  filter (fun r => has_key k (h r)) (sorted h l) =
  filter (fun r => has_key k (h r)) l.
Proof.
  induction l as [| x l IH]; [reflexivity |].
  cbn [sorted]. rewrite insert_by_stable. cbn [filter]. now rewrite IH.
Qed.

Lemma sorted_precedes (h : Store) (l : list ref) :
  StronglySorted (fun a b => precedes (h a) (h b)) (sorted h l).
Proof.
  pose proof (sorted_sorted h l) as Hs.
  induction Hs as [| a s Hs IH Hall]; constructor; [exact IH |].
  eapply Forall_impl; [| exact Hall]. intros b Hb.
  now apply key_le_precedes.
Qed.

(** X15. The sort returns the same candidates, ground nodes before all
    others and, within each group, in order of non-increasing cable
    count (none counting as 0); candidates of equal importance stay in
    their input order. *)
Theorem sorted_by_importance (h : Store) (l : list ref) :
  Permutation (sorted h l) l /\
  StronglySorted (fun a b => precedes (h a) (h b)) (sorted h l) /\
  (forall k : Z * Z,
     filter (fun r => has_key k (h r)) (sorted h l) =
     filter (fun r => has_key k (h r)) l).
Proof.
  split; [apply sorted_perm |]. split; [apply sorted_precedes |].
  intros k. apply sorted_stable.
Qed.

(** *** Order of the representatives *)

Lemma subseq_refl {A : Type} (l : list A) : subseq l l.
Proof. induction l; constructor; assumption. Qed.

Lemma subseq_nil_l {A : Type} (l : list A) : subseq [] l.
Proof. induction l; constructor; assumption. Qed.





(* ================================================================= *)
(** ** Further properties: what a merge can do *)

Lemma run_log_targets (t : R) (h : Store) (rs : list ref) :
  StronglySorted (key_le h) rs ->
  forall st : DedupState,
    (forall e r, In e (unique st) -> In r rs -> key_le h e r) ->
    forall (ev : Event) (e : ref),
      In ev (run_log t st rs) -> ev_target ev = Some e ->
      key_le h e (ev_ref ev).
Proof.
  induction 1 as [| r rs HS IH Hall]; intros st Hu ev e Hin Ht;
    [destruct Hin |].
  simpl in Hin. destruct Hin as [<- | Hin].
  - simpl in Ht. simpl.
    apply find_match_some in Ht. destruct Ht as [He _].
    apply Hu; [exact He | now left].
  - apply (IH (process t st r)); [| exact Hin | exact Ht].
    intros e' r' He' Hr'.
    apply process_unique_incl in He'. apply in_app_or in He'.
    destruct He' as [He' | [<- | []]].
    + apply Hu; [exact He' | now right].
    + rewrite Forall_forall in Hall. now apply Hall.
Qed.

(** X17. A candidate is only ever merged into a representative that is
    at least as important as itself; in particular a ground node is never
    absorbed by a candidate of another source. *)
Theorem merged_into_more_important (h : Store) (candidates : list ref)
  (t : R) (ev : Event) (e : ref) :
  In ev (dedup_log h candidates t) ->
  ev_target ev = Some e ->
  precedes (h e) (h (ev_ref ev)) /\
  (source (h (ev_ref ev)) = "ground_node" -> source (h e) = "ground_node").
Proof.
  intros Hin Ht.
  assert (Hk : key_le h e (ev_ref ev)).
  { unfold dedup_log in Hin.
    apply (run_log_targets t h (sorted h candidates) (sorted_sorted h candidates)
             (mkState h [] 0%nat)); [| exact Hin | exact Ht].
    intros e' r' []. }
  apply key_le_precedes in Hk. split; [exact Hk |].
  intros Hg. destruct Hk as [[_ Hn] | [Hiff _]]; [contradiction | tauto].
Qed.

Lemma merged_into_more_important_witness :
  precedes (store_of [chain_a; chain_b; chain_c] 1%nat)
           (store_of [chain_a; chain_b; chain_c] 0%nat).
Proof.
  refine (proj1 (merged_into_more_important
                   (store_of [chain_a; chain_b; chain_c])
                   [0%nat; 1%nat; 2%nat] 15000
                   (mkEvent 0%nat chain_a (Some 1%nat)) 1%nat _ _)).
  - rewrite chain_log. right. now left.
  - reflexivity.
Defined.

Lemma merge_into_sources (e c : Candidate) :
  merged_sources (merge_into e c) = Some (own_sources e ++ [source c])%list /\
  source (merge_into e c) = source e.
Proof. unfold merge_into, own_sources; simpl. now split. Qed.

Lemma fold_merge_sources (ds : list Candidate) :
  forall e : Candidate,
    merged_sources (fold_left merge_into ds e) =
    match ds with
    | [] => merged_sources e
    | _ :: _ => Some (own_sources e ++ map source ds)%list
    end.
Proof.
  induction ds as [| d ds IH]; intros e; [reflexivity |].
  cbn [fold_left]. rewrite IH.
  destruct (merge_into_sources e d) as [Hm Hs].
  destruct ds as [| d' ds]; [exact Hm |].
  unfold own_sources at 1. rewrite Hm.
  now rewrite <- app_assoc.
Qed.

(** X18. When no input candidate has merged sources yet, as the loaders
    leave them, an input candidate that absorbs nothing still has none
    afterwards, and one that absorbs something ends with its own source
    tag followed by the source tags of everything it absorbed, in merge
    order. *)
Theorem merged_sources_trace (h : Store) (candidates : list ref) (t : R)
  (e : ref) :
  (forall r, In r candidates -> merged_sources (h r) = None) ->
  In e candidates ->
  merged_sources (heap (deduplicate_candidates h candidates t) e) =
  match absorbed e (dedup_log h candidates t) with
  | [] => None
  | ds => Some (source (h e) :: map source ds)
  end.
Proof.
  intros Hnone He.
  rewrite dedup_heap_fold, fold_merge_sources.
  unfold own_sources. rewrite (Hnone e He).
  now destruct (absorbed e (dedup_log h candidates t)).
Qed.

(** The trace on the chain: the ground node in the middle ends with its
    own tag and the tags of the two landings it absorbed. *)
Lemma merged_sources_trace_witness :
  merged_sources
    (heap (deduplicate_candidates (store_of [chain_a; chain_b; chain_c])
             [0%nat; 1%nat; 2%nat] 15000) 1%nat) =
  Some ["ground_node"; "cable_landing"; "cable_landing"].
Proof.
  rewrite (merged_sources_trace (store_of [chain_a; chain_b; chain_c])
             [0%nat; 1%nat; 2%nat] 15000 1%nat).
  - rewrite chain_log. reflexivity.
  - intros r [<- | [<- | [<- | []]]]; reflexivity.
  - right. now left.
Defined.

Lemma fold_cable_never_lowers (ds : list Candidate) :
  forall (e : Candidate) (m : Z),
    cable_count e = Some m ->
    exists m', cable_count (fold_left merge_into ds e) = Some m' /\
               (m <= m')%Z.
Proof.
  induction ds as [| d ds IH]; intros e m He; simpl.
  - exists m. split; [exact He | lia].
  - destruct (cable_merge_never_lowers e d m He) as (m1 & H1 & Hle).
    destruct (IH _ _ H1) as (m' & Hm' & Hle').
    exists m'. split; [exact Hm' | lia].
Qed.

(** X19. A cable count, once present, is never removed and never
    lowered by deduplication. *)
Theorem cable_count_never_lowered (h : Store) (candidates : list ref)
  (t : R) (e : ref) (m : Z) :
  cable_count (h e) = Some m ->
  exists m',
    cable_count (heap (deduplicate_candidates h candidates t) e) = Some m' /\
    (m <= m')%Z.
Proof.
  intros He. rewrite dedup_heap_fold. now apply fold_cable_never_lowers.
Qed.

Lemma cable_count_never_lowered_witness :
  exists m',
    cable_count (heap (deduplicate_candidates
                         (store_of [zero_ground; five_landing])
                         [0%nat; 1%nat] 50) 0%nat) = Some m' /\
    (0 <= m')%Z.
Proof.
  apply (cable_count_never_lowered (store_of [zero_ground; five_landing])
           [0%nat; 1%nat] 50 0%nat 0%Z).
  reflexivity.
Defined.

(** *** The scenario's merge log *)

Lemma scenario_find :
  let st := mkState (store_of [scenario_ground; scenario_landing])
                    [0%nat] 0%nat in
  find_match 50 (heap st) (heap st 1%nat) (unique st) = Some 0%nat.
Proof.
  apply find_match_head. apply within_true. simpl. exact haversine_scenario.
Qed.

Lemma scenario_log :
  dedup_log (store_of [scenario_ground; scenario_landing])
    [0%nat; 1%nat] 50 =
  [ mkEvent 0%nat scenario_ground None;
    mkEvent 1%nat scenario_landing (Some 0%nat) ].
Proof.
  unfold dedup_log.
  change (sorted (store_of [scenario_ground; scenario_landing])
            [0%nat; 1%nat]) with [0%nat; 1%nat].
  unfold run_log.
  change (process 50 (mkState (store_of [scenario_ground; scenario_landing])
                        [] 0%nat) 0%nat)
    with (mkState (store_of [scenario_ground; scenario_landing])
            [0%nat] 0%nat).
  rewrite scenario_find. reflexivity.
Qed.

(** The cluster maximum at the scenario: the ground node has no count,
    absorbs a landing with five cables and ends with 5. *)
Lemma dedup_cable_count_max_witness :
  max_present
    (map cable_count
       (store_of [scenario_ground; scenario_landing] 0%nat ::
        absorbed 0%nat
          (dedup_log (store_of [scenario_ground; scenario_landing])
             [0%nat; 1%nat] 50))) = Some 5%Z.
Proof.
  apply dedup_cable_count_max.
  - rewrite scenario_log. repeat constructor. simpl. lia.
  - simpl. lia.
  - discriminate.
  - rewrite (ground_absorbs_landing
               (store_of [scenario_ground; scenario_landing])
               0%nat 1%nat 50 [0%nat; 1%nat] eq_refl eq_refl).
    + reflexivity.
    + unfold dist. simpl. exact haversine_scenario.
    + now left.
Defined.

(* ================================================================= *)
(** ** Further properties: the pipeline *)

Lemma fresh_result_origin (cs : list Candidate) (t : R) (c : Candidate) :
  In c (result (dedup_fresh cs t)) ->
  exists c0, In c0 cs /\ same_identity c c0.
Proof.
  unfold result, dedup_fresh, deduplicate_candidates. intros Hin.
  apply in_map_iff in Hin. destruct Hin as (r & <- & Hr).
  apply run_unique_incl in Hr. simpl in Hr.
  apply (Permutation_in r (sorted_perm _ _)) in Hr.
  apply in_seq in Hr. destruct Hr as [_ Hr]. simpl in Hr.
  exists (nth r cs blank). split; [now apply nth_In |].
  apply (run_identity t _ (mkState (store_of cs) [] 0%nat) r).
Qed.

Lemma fresh_conservation (cs : list Candidate) (t : R) :
  (List.length (result (dedup_fresh cs t)) + merged_count (dedup_fresh cs t)
   = List.length cs)%nat.
Proof.
  unfold result. rewrite length_map. unfold dedup_fresh, deduplicate_candidates.
  rewrite run_conservation. simpl.
  rewrite (Permutation_length (sorted_perm _ _)). apply length_seq.
Qed.

Lemma loaded_zone (nodes : list GroundNode) (points : list LandingPoint)
  (c : Candidate) :
  In c (load_ground_nodes nodes ++ load_cable_landings points)%list ->
  zone c = assign_zone (longitude c).
Proof.
  intros Hin. apply in_app_or in Hin. destruct Hin as [H | H].
  - unfold load_ground_nodes in H. apply fold_ground_nodes_in in H.
    destruct H as [[] | (n & _ & Hf)]. now destruct Hf as (_ & _ & _ & Hz & _).
  - unfold load_cable_landings in H. apply fold_cable_landings_in in H.
    destruct H as [[] | (p & _ & Hf)]. now destruct Hf as (_ & _ & _ & Hz & _).
Qed.

(** X21. End to end: the total written is the number of candidates
    written, it and the number of merges add up to the two source counts,
    every candidate written carries the id, name, coordinates, zone and
    source of a loaded candidate, its zone is the declared zone of its
    longitude, and the zone distribution adds up to the total. *)
Theorem main_accounts (nodes : list GroundNode) (points : list LandingPoint) :
  let out := main nodes points in
  let loaded := (load_ground_nodes nodes ++ load_cable_landings points)%list in
  total_candidates out = List.length (out_candidates out) /\
  (total_candidates out +
   merged_count (dedup_fresh loaded PROXIMITY_THRESHOLD_KM) =
   sources_ground_nodes out + sources_cable_landings out)%nat /\
  (forall c, In c (out_candidates out) ->
     (exists c0, In c0 loaded /\ same_identity c c0) /\
     zone c = assign_zone (longitude c) /\ declared_zone (zone c)) /\
  list_sum (map snd (zone_distribution out)) = total_candidates out.
Proof.
  cbv zeta. unfold main; simpl.
  set (loaded := (load_ground_nodes nodes ++ load_cable_landings points)%list).
  assert (Hzone : forall c,
            In c (result (dedup_fresh loaded PROXIMITY_THRESHOLD_KM)) ->
            (exists c0, In c0 loaded /\ same_identity c c0) /\
            zone c = assign_zone (longitude c) /\ declared_zone (zone c)).
  { intros c Hc. destruct (fresh_result_origin _ _ _ Hc) as (c0 & Hc0 & Hid).
    assert (Hz : zone c = assign_zone (longitude c)).
    { destruct Hid as (_ & _ & _ & Hlon & Hz & _).
      rewrite Hz, Hlon. now apply (loaded_zone nodes points). }
    split; [now exists c0 |]. split; [exact Hz |].
    rewrite Hz. apply assign_zone_range. }
  split; [reflexivity |]. split.
  - rewrite fresh_conservation. unfold loaded. apply length_app.
  - split; [exact Hzone |].
    rewrite summarize_eq. simpl. rewrite Nat.add_0_r, Nat.add_assoc.
    apply count_zone_total. apply Forall_forall. intros c Hc.
    now destruct (Hzone c Hc) as (_ & _ & Hd).
Qed.

(** The pipeline on the scenario's two records: the one candidate
    written is zoned by its longitude. *)
Lemma main_accounts_witness :
  zone (merge_into scenario_ground scenario_landing) =
  assign_zone (longitude (merge_into scenario_ground scenario_landing)) /\
  declared_zone (zone (merge_into scenario_ground scenario_landing)).
Proof.
  refine (proj2 (proj1 (proj2 (proj2 (main_accounts [scenario_node]
                                         [scenario_point])))
                   (merge_into scenario_ground scenario_landing) _)).
  unfold main, out_candidates, PROXIMITY_THRESHOLD_KM.
  rewrite scenario_loaded. unfold dedup_fresh.
  change (seq 0 (List.length [scenario_ground; scenario_landing]))
    with [0%nat; 1%nat].
  rewrite (ground_absorbs_landing
             (store_of [scenario_ground; scenario_landing])
             0%nat 1%nat 50 [0%nat; 1%nat] eq_refl eq_refl).
  - left. reflexivity.
  - unfold dist. simpl. exact haversine_scenario.
  - now left.
Defined.
